(** * A leveled, structured logger: the record pipeline of package [log]

    A shallow embedding of [log.go]: levels, fields and their builders,
    the hook registry, the formatters and the [log] pipeline, followed by the
    properties of the package that its specification states.

    Go values are modelled as follows.
    - [int] (64 bits) is [Z]; where the code adds, the wrap-around is written
      out ([int_wrap]).
    - [string] and [[]byte] are [string] (a sequence of bytes).
    - [interface{}] is [any], a tagged union of the dynamic types that the
      package's callers pass.
    - [error] is the message the error prints ([err.Error()]).
    - a call that does not return (a run-time panic, [os.Exit]) is an
      [Outcome]; the effects a call has on the outside (hooks invoked, the
      formatter invoked, bytes handed to the sink, diagnostics printed on
      standard output) are recorded, in order, in a trace of [Event]s.
    - the functions of Go's standard library that the package calls
      ([strings.ToLower], [fmt.Sprintf], [sort.Sort], ...) are the fields of
      the class [GoRuntime]; what is assumed about them is [GoRuntimeLaws]. *)

From Stdlib Require Import ZArith Lia String Ascii DecimalString DecimalPos DecimalZ.
From stdpp Require Import base tactics option list sorting gmap strings.

Local Open Scope string_scope.
Local Open Scope list_scope.
Local Open Scope Z_scope.

(** ** Go's [int] *)

(** Two's complement wrap-around of a 64-bit signed integer. *)
Definition int_wrap (z : Z) : Z := (z + 2 ^ 63) mod 2 ^ 64 - 2 ^ 63.

Definition max_int : Z := 2 ^ 63 - 1.

(** [strconv.Itoa], also what the verb [%d] prints for an [int]. *)
Definition itoa (z : Z) : string := NilZero.string_of_int (Z.to_int z).

(** Go's [error], as the message it prints. *)
Definition error := string.

(** ** Outcomes and effects *)

(** How a Go call ends: it returns, it panics, or the process exits. *)
Inductive Outcome (A : Type) : Type :=
| Done (a : A)
| Panic (msg : string)
| Exit (code : Z).
Arguments Done {A} a.
Arguments Panic {A} msg.
Arguments Exit {A} code.

Definition obind {A B} (o : Outcome A) (k : A -> Outcome B) : Outcome B :=
  match o with
  | Done a => k a
  | Panic msg => Panic msg
  | Exit code => Exit code
  end.

(** ** Level (log.go, 408-456) *)

Definition Level := Z.

Definition LUnrecognized : Level := 0.
Definition LPanic : Level := 1.
Definition LFatal : Level := 2.
Definition LError : Level := 3.
Definition LWarn : Level := 4.
Definition LInfo : Level := 5.
Definition LDebug : Level := 6.

Definition Levels : list Level := [LPanic; LFatal; LError; LWarn; LInfo; LDebug].

Definition stringToLevel : gmap string Level :=
  list_to_map
    [("panic", LPanic); ("fatal", LFatal); ("error", LError);
     ("warn", LWarn); ("info", LInfo); ("debug", LDebug)].

Definition Level_String (l : Level) : string :=
  if l =? LPanic then "panic"
  else if l =? LFatal then "fatal"
  else if l =? LError then "error"
  else if l =? LWarn then "warn"
  else if l =? LInfo then "info"
  else if l =? LDebug then "debug"
  else "unrecognized".

(** ** Timing (log.go, 259-264) *)

Definition Timing := Z.
Definition PRE : Timing := 0.
Definition POST : Timing := 1.

(** ** Field (log.go, 316-336) *)

(** The dynamic values a caller passes as [interface{}]. *)
Inductive any : Type :=
| AString (s : string)
| AInt (n : Z)
| ABool (b : bool)
| ANil.

(** The name of the dynamic type, as the run time prints it. *)
Definition type_name (v : any) : string :=
  match v with
  | AString _ => "string"
  | AInt _ => "int"
  | ABool _ => "bool"
  | ANil => "nil"
  end.

Record Field : Type := mkField { Order : Z; Key : string; Value : any }.

(** [for i, vv := range v { idx := i + index; ... }]; the key is
    [fmt.Sprintf("Field%d", idx)]. *)
Definition mkFields (index : Z) (v : list any) : list Field :=
  imap (fun i vv =>
          let idx := int_wrap (Z.of_nat i + index) in
          mkField idx ("Field" +:+ itoa idx) vv) v.

Definition mkFormatFields (format : string) (v : list any) : list Field :=
  [mkField 1 "Format" (AString format)] ++ mkFields 1 v.

(** ** FieldsSort (log.go, 339-354): the [sort.Interface] of a field slice *)

Abbreviation FieldsSort := (list Field).

Definition index_panic : string := "runtime error: index out of range".

Definition FieldsSort_Len (f : FieldsSort) : nat := length f.

(** [f[i].Order < f[j].Order]; indexing outside the slice panics. *)
Definition FieldsSort_Less (f : FieldsSort) (i j : nat) : Outcome bool :=
  match f !! i, f !! j with
  | Some a, Some b => Done (Order a <? Order b)
  | _, _ => Panic index_panic
  end.

(** [f[i], f[j] = f[j], f[i]]. *)
Definition FieldsSort_Swap (f : FieldsSort) (i j : nat) : Outcome FieldsSort :=
  match f !! i, f !! j with
  | Some a, Some b => Done (<[i := b]> (<[j := a]> f))
  | _, _ => Panic index_panic
  end.

(** ** The standard library the package calls *)

(** The functions of Go's standard library (and of [go-isatty]) whose results
    the package only passes on.  They are not part of the repository; the
    model takes them as given. *)
Class GoRuntime : Type := {
  strings_ToLower : string -> string;
  strings_ToUpper : string -> string;
  (** [fmt.Sprintf(format, a...)] *)
  fmt_Sprintf : string -> list any -> string;
  (** [sort.Sort] applied to a [FieldsSort]: the slice it leaves behind *)
  sort_Sort : FieldsSort -> FieldsSort;
  (** [time.Now().Format(layout)] *)
  time_Now_Format : string -> string;
  (** [isatty.IsTerminal(os.Stdout.Fd())], read once at start-up *)
  isatty_IsTerminal : bool
}.

(** What the documentation of these functions promises and the proofs use:
    [sort.Sort] rearranges the slice (by calls to [Swap]) so that no element
    is [Less] than one before it -- it is not said to be stable --, and the
    verb [%s] prints a string operand as it is. *)
Class GoRuntimeLaws (go : GoRuntime) : Prop := {
  sort_Sort_Permutation : forall fds : FieldsSort, sort_Sort fds ≡ₚ fds;
  sort_Sort_sorted : forall (fds : FieldsSort) (i j : nat),
      (i < j < FieldsSort_Len fds)%nat ->
      FieldsSort_Less (sort_Sort fds) j i = Done false;
  fmt_Sprintf_s_string : forall s : string, fmt_Sprintf "%s" [AString s] = s
}.

Definition nl : string := String "010" EmptyString.
Definition escape : string := String "027" EmptyString.

(** [strings.Join] *)
Fixpoint strings_Join (elems : list string) (sep : string) : string :=
  match elems with
  | [] => ""
  | [s] => s
  | s :: rest => s +:+ sep +:+ strings_Join rest sep
  end.

(** ** Parsing a level name (log.go, 432-437) *)

Definition StringToLevel `{GoRuntime} (lv : string) : Level :=
  match stringToLevel !! strings_ToLower lv with
  | Some level => level
  | None => LUnrecognized
  end.

(** ** The trace monad *)

(** What a call does to the outside, in the order it does it. *)
Inductive Event : Type :=
| EvHook (at_ : Timing) (lv : Level) (i : nat)
    (** the [i]-th hook registered for [(at_, lv)] was invoked *)
| EvFormat
    (** the logger's active formatter was invoked on the entry *)
| EvWrite (p : string)
    (** [Write(p)] was called on the logger's sink *)
| EvStdout (msg : string).
    (** the pipeline printed a diagnostic on [os.Stdout] *)

(** A computation: the events it caused and how it ended. *)
Definition M (A : Type) : Type := (list Event * Outcome A)%type.

Definition ret {A} (a : A) : M A := ([], Done a).

Definition bind {A B} (m : M A) (k : A -> M B) : M B :=
  match m with
  | (t, Done a) => let '(t', r) := k a in (t ++ t', r)
  | (t, Panic msg) => (t, Panic msg)
  | (t, Exit code) => (t, Exit code)
  end.

Definition emit (ev : Event) : M unit := ([ev], Done tt).

Definition lift {A} (o : Outcome A) : M A := ([], o).

Definition trace {A} (m : M A) : list Event := fst m.
Definition outcome {A} (m : M A) : Outcome A := snd m.

Declare Scope go_scope.
Delimit Scope go_scope with go.
Notation "'let!' x ':=' o 'in' k" := (obind o (fun x => k))
  (at level 10, x pattern, o at level 100, k at level 200) : go_scope.
Notation "'let*' x ':=' m 'in' k" := (bind m (fun x => k))
  (at level 10, x pattern, m at level 100, k at level 200) : go_scope.
Notation "m1 '>>' m2" := (bind m1 (fun _ => m2))
  (at level 100, m2 at level 200, right associativity) : go_scope.
Local Open Scope go_scope.

(** ** Hooks (log.go, 234-298) *)

(** What a hook or a formatter reads of the [Entry] it is given: the
    effective level ([EntryLevel()]) and the fields ([Fields()]). *)
Record EntryView : Type := mkView { view_level : Level; view_fields : list Field }.

(** [Hook.Fire(Entry) error]: the error returned ([None] for [nil]), unless
    the hook panics or exits.  The invocation itself is what the trace
    records. *)
Definition Hook : Type := EntryView -> Outcome (option error).

Definition hookFor (fn : EntryView -> Outcome (option error)) : Hook := fn.

Record hooks : Type := mkHooks { has : gmap Z (gmap Z (list Hook)) }.

(** [m := h.has[t]; m[l] = append(m[l], hk...); h.has[t] = m].  Writing to
    the nil map that [h.has[t]] yields for a timing other than [PRE] and
    [POST] panics. *)
Definition hooks_AddHook (h : hooks) (t : Timing) (l : Level) (hk : list Hook)
  : Outcome hooks :=
  match has h !! t with
  | Some m => Done (mkHooks (<[t := <[l := default [] (m !! l) ++ hk]> m]> (has h)))
  | None => Panic "assignment to entry in nil map"
  end.

Definition exitHook : Hook := hookFor (fun _ => Exit 1).
Definition panicHook : Hook := hookFor (fun _ => Panic "panic hook").

Definition newHooks : Outcome hooks :=
  let has := <[POST := ∅]> (<[PRE := ∅]> ∅) in
  let h := mkHooks has in
  let! h := hooks_AddHook h POST LFatal [exitHook] in
  let! h := hooks_AddHook h POST LPanic [panicHook] in
  Done h.

(** [for _, hook := range l { if err := hook.Fire(e); err != nil { return err } }],
    [i] being the position of the head of [l] in the registered list. *)
Fixpoint Fire_range (at_ : Timing) (lv : Level) (i : nat) (l : list Hook) (e : EntryView)
  : M (option error) :=
  match l with
  | [] => ret None
  | hook :: rest =>
      let* err := (emit (EvHook at_ lv i) >> lift (hook e)) in
      match err with
      | Some x => ret (Some x)
      | None => Fire_range at_ lv (S i) rest e
      end
  end.

Definition hooks_Fire (h : hooks) (at_ : Timing) (lv : Level) (e : EntryView)
  : M (option error) :=
  let m := default ∅ (has h !! at_) in
  match m !! lv with
  | Some l => Fire_range at_ lv 0 l e
  | None => ret None
  end.

(** ** Logger and entry (log.go, 62-84 and 361-405) *)

(** What a call of [Format] leaves behind: the bytes and the error it
    returns, and the field slice of the entry as it is afterwards (the slice
    is shared with the entry, and [format] sorts it in place). *)
Record Rendered : Type := mkRendered {
  rendered_fields : list Field;
  rendered_bytes : string;
  rendered_err : option error
}.

(** [Formatter.Format(Entry) ([]byte, error)] *)
Definition Formatter : Type := EntryView -> Outcome Rendered.

(** [io.Writer.Write(p) (n int, err error)] of the sink. *)
Definition Writer : Type := string -> Z * option error.

(** A [bytes.Buffer] as sink: it takes everything and never fails. *)
Definition bytes_Buffer : Writer := fun p => (Z.of_nat (String.length p), None).

(** The logger's embedded [io.Writer], its minimum level, its active
    formatter, the table of named formatters and its hook registry.  The
    mutex is left out: calls are taken one at a time. *)
Record logger : Type := mkLogger {
  logger_Writer : Writer;
  logger_level : Level;
  logger_Formatter : Formatter;
  logger_formatters : gmap string Formatter;
  logger_Hooks : hooks
}.

Definition logger_Level (l : logger) : Level := logger_level l.

(** The entry: its own level, the logger it belongs to, its fields (the
    creation time is left out). *)
Record entry : Type := mkEntry {
  entry_level : Level;
  entry_Logger : logger;
  entry_fields : list Field
}.

Definition newEntry (l : logger) (lv : Level) (f : list Field) : entry :=
  mkEntry lv l f.

Definition entry_Fields (e : entry) : list Field := entry_fields e.

Definition entry_SetEntryLevel (e : entry) (l : Level) : entry :=
  mkEntry l (entry_Logger e) (entry_fields e).

Definition entry_EntryLevel (e : entry) : Level :=
  if negb (entry_level e =? LUnrecognized) then entry_level e
  else logger_Level (entry_Logger e).

Definition view (e : entry) : EntryView :=
  mkView (entry_EntryLevel e) (entry_Fields e).

(** The entry after a formatter has left its field slice as [f]. *)
Definition entry_with_fields (e : entry) (f : list Field) : entry :=
  mkEntry (entry_level e) (entry_Logger e) f.

(** [s, err := e.Format(e); return bytes.NewBuffer(s), err]; also the entry
    as the formatter leaves it. *)
Definition entry_Read (e : entry) : M (entry * string * option error) :=
  emit EvFormat >>
  let* r := lift (logger_Formatter (entry_Logger e) (view e)) in
  ret (entry_with_fields e (rendered_fields r), rendered_bytes r, rendered_err r).

(** ** The pipeline (log.go, 86-116) *)

(** [io.Copy(dst, r)] for a [*bytes.Buffer] [r]: [r.WriteTo(dst)], which
    calls [dst.Write] once when [r] holds bytes and not at all otherwise. *)
Definition io_Copy (dst : Writer) (r : string) : M (option error) :=
  let nBytes := Z.of_nat (String.length r) in
  if 0 <? nBytes then
    emit (EvWrite r) >>
    let '(m, e) := dst r in
    if nBytes <? m then lift (Panic "bytes.Buffer.WriteTo: invalid Write count")
    else match e with
         | Some err => ret (Some err)
         | None => if negb (m =? nBytes) then ret (Some "short write") else ret None
         end
  else ret None.

Definition fire (at_ : Timing) (lv : Level) (e : entry) : M unit :=
  let* err := hooks_Fire (logger_Hooks (entry_Logger e)) at_ lv (view e) in
  match err with
  | Some x => emit (EvStdout ("log: Failed to fire hook -- " +:+ x +:+ nl))
  | None => ret tt
  end.

Definition read (e : entry) : M (entry * string) :=
  let* (e, reader, err) := entry_Read e in
  match err with
  | Some x => emit (EvStdout ("log: Failed to obtain reader -- " +:+ x +:+ nl))
  | None => ret tt
  end >>
  ret (e, reader).

Definition copy (e : entry) (r : string) : M unit :=
  let* err := io_Copy (logger_Writer (entry_Logger e)) r in
  match err with
  | Some x => emit (EvStdout ("log: Failed to write -- " +:+ x +:+ nl))
  | None => ret tt
  end.

Definition log (e : entry) : M unit :=
  fire PRE (entry_EntryLevel e) e >>
  let* (e, reader) := read e in
  copy e reader >>
  fire POST (entry_EntryLevel e) e.

(** ** The call surface (log.go, 119-187 and 208-210) *)

Definition logger_Fatal (l : logger) (v : list any) : M unit :=
  if logger_level l >=? LFatal then log (newEntry l LFatal (mkFields 0 v)) else ret tt.

Definition logger_Fatalf (l : logger) (format : string) (v : list any) : M unit :=
  if logger_level l >=? LFatal then log (newEntry l LFatal (mkFormatFields format v))
  else ret tt.

Definition logger_Fatalln (l : logger) (v : list any) : M unit :=
  if logger_level l >=? LFatal then log (newEntry l LFatal (mkFields 0 v)) else ret tt.

Definition logger_Panic (l : logger) (v : list any) : M unit :=
  if logger_level l >=? LPanic then log (newEntry l LPanic (mkFields 0 v)) else ret tt.

Definition logger_Panicf (l : logger) (format : string) (v : list any) : M unit :=
  if logger_level l >=? LPanic then log (newEntry l LPanic (mkFormatFields format v))
  else ret tt.

Definition logger_Panicln (l : logger) (v : list any) : M unit := logger_Panic l v.

Definition logger_Print (l : logger) (v : list any) : M unit :=
  if logger_level l >=? LError then log (newEntry l LInfo (mkFields 0 v)) else ret tt.

Definition logger_Printf (l : logger) (format : string) (v : list any) : M unit :=
  if logger_level l >=? LError then log (newEntry l LInfo (mkFormatFields format v))
  else ret tt.

Definition logger_Println (l : logger) (v : list any) : M unit :=
  if logger_level l >=? LError then log (newEntry l LInfo (mkFields 0 v)) else ret tt.

Definition logger_At (l : logger) (lv : Level) (v : list any) : M unit :=
  log (newEntry l lv (mkFields 0 v)).

Definition logger_Atf (l : logger) (lv : Level) (m : string) (v : list any) : M unit :=
  log (newEntry l lv (mkFormatFields m v)).

Definition logger_Log (l : logger) (e : entry) : M unit := log e.

(** ** Calls that write to a writer of their own (log.go, 190-205) *)

(** What a call that writes to a writer of its own causes: an event of the
    logger, as in [log], or a [Write] on the writer given in the call. *)
Inductive EventTo : Type :=
| OnLogger (ev : Event)
| EvWriteTo (p : string).

Definition MTo (A : Type) : Type := (list EventTo * Outcome A)%type.

Definition bindTo {A B} (m : MTo A) (k : A -> MTo B) : MTo B :=
  match m with
  | (t, Done a) => let '(t', r) := k a in (t ++ t', r)
  | (t, Panic msg) => (t, Panic msg)
  | (t, Exit code) => (t, Exit code)
  end.

Definition on_logger {A} (m : M A) : MTo A := (OnLogger <$> trace m, outcome m).

(** [io.Copy(to, reader)] with both results dropped. *)
Definition io_Copy_to (to : Writer) (r : string) : MTo unit :=
  let nBytes := Z.of_nat (String.length r) in
  if 0 <? nBytes then
    let '(m, _) := to r in
    if nBytes <? m then ([EvWriteTo r], Panic "bytes.Buffer.WriteTo: invalid Write count")
    else ([EvWriteTo r], Done tt)
  else ([], Done tt).

Definition logger_AtTo (l : logger) (lv : Level) (to : Writer) (v : list any) : MTo unit :=
  let e := newEntry l lv (mkFields 0 v) in
  bindTo (on_logger (fire PRE lv e)) (fun _ =>
  bindTo (on_logger (entry_Read e)) (fun '(e, reader, _) =>
  bindTo (io_Copy_to to reader) (fun _ =>
  on_logger (fire POST lv e)))).

Definition logger_AtTof (l : logger) (lv : Level) (to : Writer) (m : string) (v : list any)
  : MTo unit :=
  let e := newEntry l lv (mkFormatFields m v) in
  bindTo (on_logger (fire PRE lv e)) (fun _ =>
  bindTo (on_logger (entry_Read e)) (fun '(e, reader, _) =>
  bindTo (io_Copy_to to reader) (fun _ =>
  on_logger (fire POST lv e)))).

(** ** Formatters (log.go, 499-647) *)

Definition NullFormatter_Format : Formatter := fun e =>
  Done (mkRendered (view_fields e) "" None).

(** The type assertion [v.(string)]. *)
Definition assert_string (v : any) : Outcome string :=
  match v with
  | AString s => Done s
  | _ => Panic ("interface conversion: interface {} is " +:+ type_name v +:+ ", not string")
  end.

(** The loop of [formatTo], started with the values its three variables hold. *)
Fixpoint formatTo_from (formattable : bool) (f : string) (ff : list any) (fds : list Field)
  : Outcome (bool * string * list any) :=
  match fds with
  | [] => Done (formattable, f, ff)
  | fd :: rest =>
      if String.eqb (Key fd) "Format" then
        let! s := assert_string (Value fd) in
        formatTo_from true s ff rest
      else formatTo_from formattable f (ff ++ [Value fd]) rest
  end.

Definition formatTo (fds : list Field) : Outcome (bool * string * list any) :=
  formatTo_from false "" [] fds.

(** [for _, v := range ff { fmt.Fprintf(b, "%s", v) }] *)
Fixpoint Fprintf_each `{GoRuntime} (b : string) (ff : list any) : string :=
  match ff with
  | [] => b
  | v :: rest => Fprintf_each (b +:+ fmt_Sprintf "%s" [v]) rest
  end.

(** [format(b, fds)]: the slice [fds], sorted in place, and the contents of
    the buffer [b] afterwards. *)
Definition format `{GoRuntime} (b : string) (fds : FieldsSort)
  : Outcome (FieldsSort * string) :=
  let fds := sort_Sort fds in
  let! (formattable, f, ff) := formatTo fds in
  if formattable : bool then Done (fds, b +:+ fmt_Sprintf f ff)
  else Done (fds, Fprintf_each b ff).

Definition RawFormatter_Format `{GoRuntime} : Formatter := fun e =>
  let b := "" in
  let fds := view_fields e in
  let! (fds, b) := format b fds in
  let b := b +:+ nl in
  Done (mkRendered fds b None).

(** *** Colors (log.go, 650-781) *)

Definition Attribute := Z.
Definition Reset : Attribute := 0.
Definition FgHiBlack : Attribute := 90.
Definition FgHiRed : Attribute := 91.
Definition FgHiGreen : Attribute := 92.
Definition FgHiYellow : Attribute := 93.
Definition FgHiBlue : Attribute := 94.
Definition FgHiMagenta : Attribute := 95.
Definition FgHiCyan : Attribute := 96.
Definition FgHiWhite : Attribute := 97.

Record color : Type := mkColor { params : list Attribute }.

Definition color_sequence (c : color) : string :=
  strings_Join (itoa <$> params c) ";".

Definition NoColor `{GoRuntime} : bool := negb isatty_IsTerminal.

(** [c.wrap(w, a)] for one string operand: what [w] holds afterwards. *)
Definition color_wrap `{GoRuntime} (c : color) (w : string) (a : string) : string :=
  if NoColor then w +:+ a
  else w +:+ (escape +:+ "[" +:+ color_sequence c +:+ "m") +:+ a
         +:+ (escape +:+ "[" +:+ itoa Reset +:+ "m").

(** [Color(value...)]: the [Fprint] of a color with these attributes. *)
Definition Color `{GoRuntime} (value : list Attribute) : string -> string -> string :=
  color_wrap (mkColor ([] ++ value)).

Definition black `{GoRuntime} := Color [FgHiBlack].
Definition red `{GoRuntime} := Color [FgHiRed].
Definition green `{GoRuntime} := Color [FgHiGreen].
Definition yellow `{GoRuntime} := Color [FgHiYellow].
Definition blue `{GoRuntime} := Color [FgHiBlue].
Definition magenta `{GoRuntime} := Color [FgHiMagenta].
Definition cyan `{GoRuntime} := Color [FgHiCyan].
Definition white `{GoRuntime} := Color [FgHiWhite].

Definition Level_Color `{GoRuntime} (lv : Level) : string -> string -> string :=
  if lv =? LPanic then red
  else if lv =? LFatal then magenta
  else if lv =? LError then cyan
  else if lv =? LWarn then yellow
  else if lv =? LInfo then green
  else if lv =? LDebug then blue
  else white.

(** *** The text formatter (log.go, 531-620) *)

Record TextFormatter : Type := mkTextFormatter {
  Name : string;
  TimestampFormat : string;
  Sort : bool
}.

Definition time_StampNano : string := "Jan _2 15:04:05.000000000".

Definition MakeTextFormatter (name : string) : TextFormatter :=
  mkTextFormatter name time_StampNano false.

(** The three base templates are [{{.Lvl}} ], [{{.Name}} ] and [{{.Time}} ]:
    executed on the one-entry map that [tmplTo] builds, each prints the value
    and a space into [b]; [tmplTo] returns what [b] then holds. *)
Definition tmplTo (v : string) (b : string) : string := b +:+ v +:+ " ".

Definition TextFormatter_formatFields `{GoRuntime}
    (t : TextFormatter) (b : string) (e : EntryView) (timestampFormat : string)
  : Outcome (FieldsSort * string) :=
  let tb := "" in
  let lvl := view_level e in
  let lvlColor := Level_Color lvl in
  let lvlText := strings_ToUpper (Level_String lvl) in
  let b := lvlColor b (tmplTo lvlText tb) in
  let b := black b (tmplTo (Name t) tb) in
  let timestamp := time_Now_Format timestampFormat in
  let b := blue b (tmplTo timestamp tb) in
  let fds := view_fields e in
  format b fds.

(** The list of keys that [Format] collects (and sorts when [Sort] is set)
    is never read by [formatFields]; it is left out. *)
Definition TextFormatter_Format `{GoRuntime} (t : TextFormatter) : Formatter := fun e =>
  let timestampFormat :=
    if String.eqb (TimestampFormat t) "" then time_StampNano else TimestampFormat t in
  let b := "" in
  let! (fds, b) := TextFormatter_formatFields t b e timestampFormat in
  let b := b +:+ nl in
  Done (mkRendered fds b None).

(** ** Construction and the formatter table (log.go, 71-80, 213-231, 491-497) *)

Definition defaultFormatters `{GoRuntime} (tag : string) : gmap string Formatter :=
  <["text" := TextFormatter_Format (MakeTextFormatter tag)]>
    (<["raw" := RawFormatter_Format]> (<["null" := NullFormatter_Format]> ∅)).

Definition logger_SetFormatter (l : logger) (k : string) (f : Formatter) : logger :=
  mkLogger (logger_Writer l) (logger_level l) (logger_Formatter l)
    (<[k := f]> (logger_formatters l)) (logger_Hooks l).

Definition logger_GetFormatter (l : logger) (k : string) : Formatter :=
  match logger_formatters l !! k with
  | Some f => f
  | None => NullFormatter_Format
  end.

Definition logger_SwapFormatter (l : logger) (f : string) : logger :=
  let nf := logger_GetFormatter l f in
  mkLogger (logger_Writer l) (logger_level l) nf (logger_formatters l) (logger_Hooks l).

(** The [Formatter] field before [New] sets it: a nil interface. *)
Definition nil_Formatter : Formatter :=
  fun _ => Panic "runtime error: invalid memory address or nil pointer dereference".

Definition New `{GoRuntime} (w : Writer) (l : Level) (tag : string) : Outcome logger :=
  let! hk := newHooks in
  let ret := mkLogger w l nil_Formatter (defaultFormatters tag) hk in
  Done (logger_SwapFormatter ret "null").

(** ** Reference runtimes

    Concrete runtimes, on which the definitions above can be run.  They
    differ in [sort.Sort] only: the sorts below are taken from Go's [sort]
    package, where they handle short slices; here they are applied to slices
    of any length, on which they still sort. *)

Definition lower_ascii (c : ascii) : ascii :=
  let n := nat_of_ascii c in
  if ((65 <=? n) && (n <=? 90))%nat then ascii_of_nat (n + 32) else c.

Definition upper_ascii (c : ascii) : ascii :=
  let n := nat_of_ascii c in
  if ((97 <=? n) && (n <=? 122))%nat then ascii_of_nat (n - 32) else c.

Fixpoint map_bytes (f : ascii -> ascii) (s : string) : string :=
  match s with
  | EmptyString => EmptyString
  | String c rest => String (f c) (map_bytes f rest)
  end.

(** [strings.ToLower] and [strings.ToUpper] on ASCII text. *)
Definition ascii_ToLower : string -> string := map_bytes lower_ascii.
Definition ascii_ToUpper : string -> string := map_bytes upper_ascii.

(** A small [fmt.Sprintf]: the verbs [%s], [%v], [%d] and [%t] without flags,
    [%%], and the marks [fmt] leaves for a wrong, missing or extra operand. *)
Definition mini_operand (v : any) : string :=
  match v with
  | AString s => s
  | AInt n => itoa n
  | ABool true => "true"
  | ABool false => "false"
  | ANil => "<nil>"
  end.

Definition mini_bad_verb (c : ascii) (v : any) : string :=
  match v with
  | ANil => "%!" +:+ String c "(<nil>)"
  | _ => "%!" +:+ String c "(" +:+ type_name v +:+ "=" +:+ mini_operand v +:+ ")"
  end.

Definition mini_verb (c : ascii) (v : any) : string :=
  match v with
  | AString s => if (Ascii.eqb c "s" || Ascii.eqb c "v")%bool then s else mini_bad_verb c v
  | AInt n => if (Ascii.eqb c "d" || Ascii.eqb c "v")%bool then itoa n else mini_bad_verb c v
  | ABool b => if (Ascii.eqb c "t" || Ascii.eqb c "v")%bool then mini_operand v
               else mini_bad_verb c v
  | ANil => if Ascii.eqb c "v" then "<nil>" else mini_bad_verb c v
  end.

Definition mini_extra (a : list any) : string :=
  match a with
  | [] => ""
  | _ => "%!(EXTRA "
           +:+ strings_Join ((fun v => match v with
                                       | ANil => "<nil>"
                                       | _ => type_name v +:+ "=" +:+ mini_operand v
                                       end) <$> a) ", "
           +:+ ")"
  end.

Fixpoint mini_Sprintf (format : string) (a : list any) : string :=
  match format with
  | EmptyString => mini_extra a
  | String "%" EmptyString => "%!(NOVERB)"
  | String "%" (String c rest) =>
      if Ascii.eqb c "%" then String "%" (mini_Sprintf rest a)
      else match a with
           | [] => "%!" +:+ String c "(MISSING)" +:+ mini_Sprintf rest []
           | v :: a' => mini_verb c v +:+ mini_Sprintf rest a'
           end
  | String c rest => String c (mini_Sprintf rest a)
  end.

(** [insertionSort(data, a, b)] of package [sort]:
    [for i := a + 1; i < b; i++ {
       for j := i; j > a && data.Less(j, j-1); j-- { data.Swap(j, j-1) } }] *)
Fixpoint insertion_inner (data : FieldsSort) (a j : nat) : Outcome FieldsSort :=
  match j with
  | O => Done data
  | S j' =>
      if (a <? j)%nat then
        let! lt := FieldsSort_Less data j j' in
        if lt : bool then
          let! data := FieldsSort_Swap data j j' in
          insertion_inner data a j'
        else Done data
      else Done data
  end.

(** The outer loop, from [i] on, with [n] iterations left. *)
Fixpoint insertion_outer (data : FieldsSort) (a i n : nat) : Outcome FieldsSort :=
  match n with
  | O => Done data
  | S n' =>
      let! data := insertion_inner data a i in
      insertion_outer data a (S i) n'
  end.

Definition insertionSort (data : FieldsSort) (a b : nat) : Outcome FieldsSort :=
  insertion_outer data a (S a) (b - S a).

(** [for i := a + 6; i < b; i++ { if data.Less(i, i-6) { data.Swap(i, i-6) } }],
    from [i] on, with [n] iterations left. *)
Fixpoint shell_pass (data : FieldsSort) (i n : nat) : Outcome FieldsSort :=
  match n with
  | O => Done data
  | S n' =>
      let! lt := FieldsSort_Less data i (i - 6) in
      let! data := (if lt : bool then FieldsSort_Swap data i (i - 6) else Done data) in
      shell_pass data (S i) n'
  end.

(** The end of [quickSort] (Go 1.6 to 1.18), reached at once for a slice of
    at most 12 elements: one Shell pass with gap 6, then insertion sort. *)
Definition shellInsertionSort (data : FieldsSort) (a b : nat) : Outcome FieldsSort :=
  if (1 <? b - a)%nat then
    let! data := shell_pass data (a + 6) (b - (a + 6)) in
    insertionSort data a b
  else Done data.

(** The slice after a sort that does not panic. *)
Definition sorted_slice (data : FieldsSort) (o : Outcome FieldsSort) : FieldsSort :=
  match o with
  | Done data' => data'
  | _ => data
  end.

(** [sort.Sort] as insertion sort (what Go 1.19 and later do for a slice of
    at most 12 elements). *)
Definition Sort_insertion (data : FieldsSort) : FieldsSort :=
  let n := FieldsSort_Len data in
  sorted_slice data (insertionSort data 0 n).

(** [sort.Sort] as Shell pass and insertion sort. *)
Definition Sort_shell (data : FieldsSort) : FieldsSort :=
  let n := FieldsSort_Len data in
  sorted_slice data (shellInsertionSort data 0 n).

Definition go_insertion : GoRuntime := {|
  strings_ToLower := ascii_ToLower;
  strings_ToUpper := ascii_ToUpper;
  fmt_Sprintf := mini_Sprintf;
  sort_Sort := Sort_insertion;
  time_Now_Format := fun _ => "Jan  1 00:00:00.000000000";
  isatty_IsTerminal := false
|}.

Definition go_shell : GoRuntime := {|
  strings_ToLower := ascii_ToLower;
  strings_ToUpper := ascii_ToUpper;
  fmt_Sprintf := mini_Sprintf;
  sort_Sort := Sort_shell;
  time_Now_Format := fun _ => "Jan  1 00:00:00.000000000";
  isatty_IsTerminal := false
|}.

(** *** [sort.Sort] of Go 1.19 and later

    Since Go 1.19 [sort.Sort] is [pdqsort], of which the functions below are
    the part that a call on a slice of at most 13 elements runs: a slice of
    at most 12 elements goes to [insertionSort] at once, and one of 13 is
    partitioned once, into two parts of at most 12 elements.  [pdqsort] sorts
    the parts by the same steps; here they go to [insertionSort] whatever
    their length.  What [pdqsort] does only for a part of more than 12
    elements is left out: shuffling after an unbalanced partition
    ([breakPatterns]), the heap sort it falls back on, and [partitionEqual],
    which it turns to only for a part that does not begin the slice. *)

(** [sortedHint] *)
Inductive sortedHint : Type := unknownHint | increasingHint | decreasingHint.

(** [order2(data, a, b, swaps)]: the two indices, the one of the smaller
    element first, and the count of swaps. *)
Definition order2 (data : FieldsSort) (a b swaps : nat) : Outcome (nat * nat * nat) :=
  let! lt := FieldsSort_Less data b a in
  if lt : bool then Done (b, a, S swaps) else Done (a, b, swaps).

(** [median(data, a, b, c, swaps)] *)
Definition median (data : FieldsSort) (a b c swaps : nat) : Outcome (nat * nat) :=
  let! (a, b, swaps) := order2 data a b swaps in
  let! (b, c, swaps) := order2 data b c swaps in
  let! (a, b, swaps) := order2 data a b swaps in
  Done (b, swaps).

(** [medianAdjacent(data, a, swaps)] *)
Definition medianAdjacent (data : FieldsSort) (a swaps : nat) : Outcome (nat * nat) :=
  median data (a - 1) a (a + 1) swaps.

(** [choosePivot(data, a, b)]: the median of three elements (of three
    medians of three for 50 elements and more), and a hint from the number of
    swaps that finding it took. *)
Definition choosePivot (data : FieldsSort) (a b : nat) : Outcome (nat * sortedHint) :=
  let l := (b - a)%nat in
  let i := (a + l / 4 * 1)%nat in
  let j := (a + l / 4 * 2)%nat in
  let k := (a + l / 4 * 3)%nat in
  let! (j, swaps) :=
    (if (8 <=? l)%nat then
       let! (i, j, k, swaps) :=
         (if (50 <=? l)%nat then
            let! (i, swaps) := medianAdjacent data i 0 in
            let! (j, swaps) := medianAdjacent data j swaps in
            let! (k, swaps) := medianAdjacent data k swaps in
            Done (i, j, k, swaps)
          else Done (i, j, k, 0%nat)) in
       median data i j k swaps
     else Done (j, 0%nat)) in
  Done (j, match swaps with
           | 0%nat => increasingHint
           | 12%nat => decreasingHint
           | _ => unknownHint
           end).

(** [reverseRange(data, a, b)]:
    [i := a; j := b - 1; for i < j { data.Swap(i, j); i++; j-- }],
    with [n] iterations left. *)
Fixpoint reverseRange_from (data : FieldsSort) (i j n : nat) : Outcome FieldsSort :=
  match n with
  | O => Done data
  | S n' =>
      if (i <? j)%nat then
        let! data := FieldsSort_Swap data i j in
        reverseRange_from data (S i) (j - 1) n'
      else Done data
  end.

Definition reverseRange (data : FieldsSort) (a b : nat) : Outcome FieldsSort :=
  reverseRange_from data a (b - 1) (b - a).

(** [for i < b && !data.Less(i, i-1) { i++ }], with [n] iterations left. *)
Fixpoint skip_ordered (data : FieldsSort) (i b n : nat) : Outcome nat :=
  match n with
  | O => Done i
  | S n' =>
      if (i <? b)%nat then
        let! lt := FieldsSort_Less data i (i - 1) in
        if lt : bool then Done i else skip_ordered data (S i) b n'
      else Done i
  end.

(** [for j := i - 1; j >= 1; j-- {
       if !data.Less(j, j-1) { break }; data.Swap(j, j-1) }] *)
Fixpoint shift_left (data : FieldsSort) (j : nat) : Outcome FieldsSort :=
  match j with
  | O => Done data
  | S j' =>
      let! lt := FieldsSort_Less data j j' in
      if lt : bool then
        let! data := FieldsSort_Swap data j j' in
        shift_left data j'
      else Done data
  end.

(** [for j := i + 1; j < b; j++ {
       if !data.Less(j, j-1) { break }; data.Swap(j, j-1) }],
    with [n] iterations left. *)
Fixpoint shift_right (data : FieldsSort) (j b n : nat) : Outcome FieldsSort :=
  match n with
  | O => Done data
  | S n' =>
      if (j <? b)%nat then
        let! lt := FieldsSort_Less data j (j - 1) in
        if lt : bool then
          let! data := FieldsSort_Swap data j (j - 1) in
          shift_right data (S j) b n'
        else Done data
      else Done data
  end.

(** The loop of [partialInsertionSort], with [steps] of its [maxSteps]
    iterations left. *)
Fixpoint partialInsertionSort_from (data : FieldsSort) (a b i steps : nat)
  : Outcome (FieldsSort * bool) :=
  match steps with
  | O => Done (data, false)
  | S steps' =>
      let! i := skip_ordered data i b (b - i) in
      if (i =? b)%nat then Done (data, true)
      else if (b - a <? 50)%nat then Done (data, false)
      else
        let! data := FieldsSort_Swap data i (i - 1) in
        let! data := (if (2 <=? i - a)%nat then shift_left data (i - 1) else Done data) in
        let! data := (if (2 <=? b - i)%nat then shift_right data (S i) b (b - S i)
                      else Done data) in
        partialInsertionSort_from data a b i steps'
  end.

(** [partialInsertionSort(data, a, b)]: the slice, and whether it is sorted
    at the end. *)
Definition partialInsertionSort (data : FieldsSort) (a b : nat)
  : Outcome (FieldsSort * bool) :=
  partialInsertionSort_from data a b (S a) 5.

(** [for i <= j && data.Less(i, a) { i++ }], with [n] iterations left. *)
Fixpoint skip_less (data : FieldsSort) (a i j n : nat) : Outcome nat :=
  match n with
  | O => Done i
  | S n' =>
      if (i <=? j)%nat then
        let! lt := FieldsSort_Less data i a in
        if lt : bool then skip_less data a (S i) j n' else Done i
      else Done i
  end.

(** [for i <= j && !data.Less(j, a) { j-- }], with [n] iterations left. *)
Fixpoint skip_not_less (data : FieldsSort) (a i j n : nat) : Outcome nat :=
  match n with
  | O => Done j
  | S n' =>
      if (i <=? j)%nat then
        let! lt := FieldsSort_Less data j a in
        if lt : bool then Done j else skip_not_less data a i (j - 1) n'
      else Done j
  end.

(** The second loop of [partition], with [n] iterations left: the slice
    and [j] at the [break]. *)
Fixpoint partition_from (data : FieldsSort) (a i j n : nat) : Outcome (FieldsSort * nat) :=
  match n with
  | O => Done (data, j)
  | S n' =>
      let! i := skip_less data a i j (S j - i) in
      let! j := skip_not_less data a i j (S j - i) in
      if (j <? i)%nat then Done (data, j)
      else
        let! data := FieldsSort_Swap data i j in
        partition_from data a (S i) (j - 1) n'
  end.

(** [partition(data, a, b, pivot)]: the slice, the new index of the pivot,
    and whether the slice was partitioned already. *)
Definition partition (data : FieldsSort) (a b pivot : nat)
  : Outcome (FieldsSort * nat * bool) :=
  let! data := FieldsSort_Swap data a pivot in
  let i := S a in
  let j := (b - 1)%nat in
  let! i := skip_less data a i j (S j - i) in
  let! j := skip_not_less data a i j (S j - i) in
  if (j <? i)%nat then
    let! data := FieldsSort_Swap data j a in
    Done (data, j, true)
  else
    let! data := FieldsSort_Swap data i j in
    let! (data, j) := partition_from data a (S i) (j - 1) (b - a) in
    let! data := FieldsSort_Swap data j a in
    Done (data, j, false).

(** [pdqsort(data, a, b, limit)] as [Sort] enters it, with [limit] above 0
    and both [wasBalanced] and [wasPartitioned] set: a slice of at most 12
    elements is sorted by insertion; a longer one is partitioned around the
    pivot, unless it is found sorted on the way, and its two parts are
    sorted, the shorter part first. *)
Definition pdqsort (data : FieldsSort) (a b : nat) : Outcome FieldsSort :=
  let length := (b - a)%nat in
  if (length <=? 12)%nat then insertionSort data a b
  else
    let! (pivot, hint) := choosePivot data a b in
    let! (data, pivot, hint) :=
      (match hint with
       | decreasingHint =>
           let! data := reverseRange data a b in
           Done (data, ((b - 1) - (pivot - a))%nat, increasingHint)
       | _ => Done (data, pivot, hint)
       end) in
    let! (data, sorted) :=
      (match hint with
       | increasingHint => partialInsertionSort data a b
       | _ => Done (data, false)
       end) in
    if sorted : bool then Done data
    else
      let! (data, mid, _) := partition data a b pivot in
      let leftLen := (mid - a)%nat in
      let rightLen := (b - mid)%nat in
      if (leftLen <? rightLen)%nat then
        let! data := insertionSort data a mid in
        insertionSort data (S mid) b
      else
        let! data := insertionSort data (S mid) b in
        insertionSort data a mid.

(** [n := data.Len(); if n <= 1 { return }; pdqsort(data, 0, n, limit)] *)
Definition Sort_pdq (data : FieldsSort) : FieldsSort :=
  let n := FieldsSort_Len data in
  if (n <=? 1)%nat then data else sorted_slice data (pdqsort data 0 n).

Definition go_pdq : GoRuntime := {|
  strings_ToLower := ascii_ToLower;
  strings_ToUpper := ascii_ToUpper;
  fmt_Sprintf := mini_Sprintf;
  sort_Sort := Sort_pdq;
  time_Now_Format := fun _ => "Jan  1 00:00:00.000000000";
  isatty_IsTerminal := false
|}.

(** ** Notions used in the statements *)

(** The hooks registered for [(at_, lv)], in the order of registration. *)
Definition registered (h : hooks) (at_ : Timing) (lv : Level) : option (list Hook) :=
  default ∅ (has h !! at_) !! lv.


(** The events of [fire]: invocations of hooks for [(at_, lv)], then at most
    one diagnostic. *)
Definition fire_event (at_ : Timing) (lv : Level) (ev : Event) : Prop :=
  (exists i, ev = EvHook at_ lv i) \/ (exists msg, ev = EvStdout msg).

(** Insertion of [x] into the part of the slice to its left, read from right
    to left: [x] moves left past every field of larger [Order]. *)
Fixpoint sift (x : Field) (rp : list Field) : list Field :=
  match rp with
  | [] => [x]
  | y :: r => if Order x <? Order y then y :: sift x r else x :: y :: r
  end.

(** What insertion sort computes. *)
Definition isort (data : list Field) : list Field :=
  reverse (foldl (fun acc x => sift x acc) [] data).

(** The diagnostic of [read] for the error a formatter returned. *)
Definition read_diag (err : option error) : list Event :=
  match err with
  | Some x => [EvStdout ("log: Failed to obtain reader -- " +:+ x +:+ nl)]
  | None => []
  end.

(** The events of rendering and copying: neither is the invocation of a hook. *)
Definition render_event (ev : Event) : Prop :=
  ev = EvFormat \/ (exists p, ev = EvWrite p) \/ (exists msg, ev = EvStdout msg).

(** [call] puts the record [e] through the pipeline exactly when [gate]
    holds, and does nothing at all otherwise. *)
Definition emits_iff (call : M unit) (e : entry) (gate : Prop) : Prop :=
  (call = log e <-> gate) /\ (call = ret tt <-> ~ gate).

(** The fields that are operands: those not keyed "Format", in order. *)
Definition non_Format (fds : list Field) : list Field :=
  filter (fun fd => Key fd <> "Format") fds.

Definition operands (fds : list Field) : list any := Value <$> non_Format fds.

(** The templates: the string values of the fields keyed "Format", in order. *)
Definition templates (fds : list Field) : list string :=
  omap (fun fd => if decide (Key fd = "Format")
                  then match Value fd with AString s => Some s | _ => None end
                  else None) fds.

(** Every field keyed "Format" holds a string. *)
Definition string_templates (fds : list Field) : Prop :=
  forall fd, fd ∈ fds -> Key fd = "Format" -> exists s, Value fd = AString s.

Definition string_concat (l : list string) : string := foldr String.append "" l.

(** The rendered-field-body rule, in the words of the specification: with a
    field keyed "Format", its value is the template and the other fields'
    values are its operands, in the order of the fields; without one, the
    string forms (what [%s] prints) of the values are concatenated. *)
Definition rendered_body `{GoRuntime} (fds : list Field) : string :=
  match last (templates fds) with
  | Some f => fmt_Sprintf f (operands fds)
  | None => string_concat ((fun v => fmt_Sprintf "%s" [v]) <$> operands fds)
  end.

(** Fields of equal [Order] are in the same relative order in [l'] as in [l]. *)
Definition Stable (l l' : list Field) : Prop :=
  forall o : Z, filter (fun fd => Order fd = o) l' = filter (fun fd => Order fd = o) l.

(** Registrations made one after the other: [h.AddHook(t, l, hk...)] for each
    [(t, l, hk)] of the list, in order. *)
Fixpoint hooks_AddHooks (h : hooks) (adds : list (Timing * Level * list Hook))
  : Outcome hooks :=
  match adds with
  | [] => Done h
  | (t, l, hk) :: rest =>
      let! h := hooks_AddHook h t l hk in
      hooks_AddHooks h rest
  end.

(** The hooks the registrations [adds] give for [(t, l)], in order. *)
Definition added (adds : list (Timing * Level * list Hook)) (t : Timing) (l : Level)
  : list Hook :=
  concat (omap (fun a : Timing * Level * list Hook =>
                  if decide ((a.1.1, a.1.2) = (t, l)) then Some a.2 else None) adds).

(** The registry has a map for [PRE] and one for [POST], and for no other
    timing. *)
Definition two_timings (h : hooks) : Prop :=
  forall t, is_Some (has h !! t) <-> t = PRE \/ t = POST.

(** [ev] is a call of the formatter, or a [Write] on the sink. *)
Definition is_format (ev : Event) : bool :=
  match ev with EvFormat => true | _ => false end.

Definition is_write (ev : Event) : bool :=
  match ev with EvWrite _ => true | _ => false end.

(** The text [s] between the escape sequence that selects the attribute
    [code] and the one that resets all attributes. *)
Definition sgr (code : string) (s : string) : string :=
  escape +:+ "[" +:+ code +:+ "m" +:+ s +:+ escape +:+ "[0m".

(** The attribute a level is printed with. *)
Definition level_code (lv : Level) : string :=
  if lv =? LPanic then "91"
  else if lv =? LFatal then "95"
  else if lv =? LError then "96"
  else if lv =? LWarn then "93"
  else if lv =? LInfo then "92"
  else if lv =? LDebug then "94"
  else "97".

(** The body the two calls share, for the entry [e] they build. *)
Definition to_pipeline (lv : Level) (to : Writer) (e : entry) : MTo unit :=
  bindTo (on_logger (fire PRE lv e)) (fun _ =>
  bindTo (on_logger (entry_Read e)) (fun '(e, reader, _) =>
  bindTo (io_Copy_to to reader) (fun _ =>
  on_logger (fire POST lv e)))).

(** What [call], made for the entry [e] at [lv], never does: it does not
    write to the logger's sink; what it writes to its own writer is what the
    formatter returned, and is not empty; it prints no diagnostic other than
    that of a failing hook; it invokes hooks for [lv] only. *)
Definition writes_aside (call : MTo unit) (lv : Level) (e : entry) : Prop :=
  (forall p, OnLogger (EvWrite p) ∉ call.1) /\
  (forall p, EvWriteTo p ∈ call.1 ->
     p <> "" /\
     exists r, logger_Formatter (entry_Logger e) (view e) = Done r /\
               rendered_bytes r = p) /\
  (forall msg, OnLogger (EvStdout msg) ∈ call.1 ->
     exists x, msg = "log: Failed to fire hook -- " +:+ x +:+ nl) /\
  (forall t l i, OnLogger (EvHook t l i) ∈ call.1 -> l = lv /\ (t = PRE \/ t = POST)).

(** With no hooks for [lv], [call] renders [e] once and hands the bytes, if
    there are any, to [to]; the error of the formatter, and the error or
    short count of the writer, are dropped. *)
Definition renders_aside (call : MTo unit) (lv : Level) (to : Writer) (e : entry) : Prop :=
  registered (logger_Hooks (entry_Logger e)) PRE lv = None ->
  registered (logger_Hooks (entry_Logger e)) POST lv = None ->
  forall r, logger_Formatter (entry_Logger e) (view e) = Done r ->
    (rendered_bytes r = "" -> call = ([OnLogger EvFormat], Done tt)) /\
    (rendered_bytes r <> "" ->
     (to (rendered_bytes r)).1 <= Z.of_nat (String.length (rendered_bytes r)) ->
     call = ([OnLogger EvFormat; EvWriteTo (rendered_bytes r)], Done tt)).

(** ** Fixtures (log_test.go) *)

(** The registry [newHooks] returns: nothing before rendering, the exit hook
    after a record at [LFatal], the panic hook after one at [LPanic]. *)
Definition builtin_hooks : hooks :=
  mkHooks (<[POST := <[LPanic := [panicHook]]> (<[LFatal := [exitHook]]> ∅)]>
             (<[PRE := ∅]> ∅)).

(** [l := New(b, lv, "TEST"); l.SwapFormatter("raw")] for a buffer [b]. *)
Definition raw_logger `{GoRuntime} (lv : Level) : logger :=
  mkLogger bytes_Buffer lv RawFormatter_Format (defaultFormatters "TEST") builtin_hooks.

(** The fields of [TestEntry]. *)
Definition three_fields (k0 k1 k2 : string) : list Field :=
  [mkField 0 k0 (AString "first field-");
   mkField 1 k1 (AString "second field-");
   mkField 2 k2 (AString "third field")].

(** [TestHook]: a hook that records that it ran (in the trace) and
    returns nil. *)
Definition testHook : Hook := fun _ => Done None.

(** A formatter that fails after rendering a part of the record. *)
Definition failing_Formatter : Formatter := fun e =>
  Done (mkRendered (view_fields e) "partial" (Some "boom")).

Definition failing_logger : logger :=
  mkLogger bytes_Buffer LDebug failing_Formatter ∅ builtin_hooks.

(** Seven hand-built fields, the last of which sorts first. *)
Definition seven_fields : list Field :=
  [mkField 1 "a" (AString "a"); mkField 1 "b" (AString "b");
   mkField 1 "c" (AString "c"); mkField 1 "d" (AString "d");
   mkField 1 "e" (AString "e"); mkField 1 "f" (AString "f");
   mkField 0 "g" (AString "g")].

(** Thirteen hand-built fields, the last of which sorts first. *)
Definition thirteen_fields : list Field :=
  [mkField 1 "a" (AString "a"); mkField 1 "b" (AString "b");
   mkField 1 "c" (AString "c"); mkField 1 "d" (AString "d");
   mkField 1 "e" (AString "e"); mkField 1 "f" (AString "f");
   mkField 1 "g" (AString "g"); mkField 1 "h" (AString "h");
   mkField 1 "i" (AString "i"); mkField 1 "j" (AString "j");
   mkField 1 "k" (AString "k"); mkField 1 "l" (AString "l");
   mkField 0 "m" (AString "m")].

(** The names [stringToLevel] knows. *)
Definition level_names : list string :=
  ["panic"; "fatal"; "error"; "warn"; "info"; "debug"].

(** A hook that returns an error. *)
Definition failing_Hook : Hook := fun _ => Done (Some "bad").

(** A logger with three hooks to fire before a record at [LInfo], the
    second of which is [hk]. *)
Definition hooked_logger (hk : Hook) : logger :=
  mkLogger bytes_Buffer LDebug NullFormatter_Format ∅
    (mkHooks (<[PRE := <[LInfo := [testHook; hk; testHook]]> ∅]> (has builtin_hooks))).

(** A logger whose sink takes nothing and reports no error. *)
Definition short_logger : logger :=
  mkLogger (fun _ => (0, None)) LDebug failing_Formatter ∅ builtin_hooks.

(** * Properties *)

(** ** Levels *)

Lemma stringToLevel_Some (k : string) (l : Level) :
  stringToLevel !! k = Some l -> k ∈ level_names /\ Level_String l = k.
Proof.
  intros H. apply elem_of_list_to_map_2 in H.
  repeat (apply elem_of_cons in H as [H | H];
          [injection H as -> ->; split; [set_solver | reflexivity] |]).
  by apply elem_of_nil in H.
Qed.

Lemma stringToLevel_None (k : string) :
  stringToLevel !! k = None -> k ∉ level_names.
Proof.
  intros H. apply not_elem_of_list_to_map_2 in H. exact H.
Qed.

(** C8. Parsing a level name and printing the level gives the name in lower
    case, whatever the letter case of the input: for every string whose
    lower-case form is one of panic, fatal, error, warn, info, debug,
    [Level_String (StringToLevel s)] is that lower-case form; every other
    string parses to [LUnrecognized], which prints as "unrecognized". *)
Theorem Level_roundtrip (go : GoRuntime) (s : string) :
  (strings_ToLower s ∈ level_names ->
   Level_String (StringToLevel s) = strings_ToLower s) /\
  (strings_ToLower s ∉ level_names ->
   StringToLevel s = LUnrecognized /\
   Level_String (StringToLevel s) = "unrecognized").
Proof.
  unfold StringToLevel.
  destruct (stringToLevel !! strings_ToLower s) as [l |] eqn:E.
  - apply stringToLevel_Some in E as [Hin Hs]. split; [done | by intros []].
  - apply stringToLevel_None in E. split; [by intros ? | done].
Qed.

(** On ASCII input the letter case is immaterial: every spelling of a level
    name parses to the level of that name. *)
Example Level_roundtrip_mixed_case :
  @StringToLevel go_insertion "WaRn" = LWarn /\
  Level_String (@StringToLevel go_insertion "DEBUG") = "debug" /\
  @StringToLevel go_insertion "verbose" = LUnrecognized /\
  (forall l, l ∈ Levels -> @StringToLevel go_insertion (Level_String l) = l).
Proof.
  repeat split; try reflexivity.
  intros l Hl. unfold Levels in Hl.
  repeat (apply elem_of_cons in Hl as [-> | Hl]; [reflexivity |]).
  by apply elem_of_nil in Hl.
Qed.

(** ** Entries *)

(** C6, as the code has it. After [SetEntryLevel(L)] with [L] other than
    [LUnrecognized], [EntryLevel()] returns [L]; after
    [SetEntryLevel(LUnrecognized)] it returns the level of the owning logger.
    In general [EntryLevel()] is the entry's own level when that is not
    [LUnrecognized], and the logger's level otherwise. *)
Theorem EntryLevel_after_SetEntryLevel (e : entry) (L : Level) :
  (L <> LUnrecognized -> entry_EntryLevel (entry_SetEntryLevel e L) = L) /\
  entry_EntryLevel (entry_SetEntryLevel e LUnrecognized)
    = logger_Level (entry_Logger e) /\
  (entry_level e <> LUnrecognized -> entry_EntryLevel e = entry_level e) /\
  (entry_level e = LUnrecognized ->
   entry_EntryLevel e = logger_Level (entry_Logger e)).
Proof.
  unfold entry_EntryLevel, entry_SetEntryLevel; simpl.
  repeat split.
  - intros H. destruct (Z.eqb_spec L LUnrecognized); [done | reflexivity].
  - intros H. destruct (Z.eqb_spec (entry_level e) LUnrecognized); [done | reflexivity].
  - intros ->. reflexivity.
Qed.

(** C6, as stated, fails for [L = LUnrecognized]: on a logger at [LDebug],
    [EntryLevel()] after [SetEntryLevel(LUnrecognized)] is [LDebug]. *)
Lemma EntryLevel_after_SetEntryLevel_Unrecognized :
  let e := newEntry (@raw_logger go_insertion LDebug) LInfo [] in
  entry_EntryLevel (entry_SetEntryLevel e LUnrecognized) = LDebug /\
  ~ (forall L, entry_EntryLevel (entry_SetEntryLevel e L) = L).
Proof.
  split; [reflexivity |].
  intros H. specialize (H LUnrecognized). discriminate H.
Qed.

(** ** Field builders *)

Definition Order_lt (a b : Field) : Prop := Order a < Order b.
Definition Order_le (a b : Field) : Prop := Order a <= Order b.

Lemma StronglySorted_lookup {A} (R : relation A) (l : list A) :
  StronglySorted R l <->
  (forall i j a b, (i < j)%nat -> l !! i = Some a -> l !! j = Some b -> R a b).
Proof.
  split.
  - induction 1 as [| x l Hl IH Hx]; intros i j a b Hij Hi Hj.
    + by rewrite lookup_nil in Hi.
    + destruct j as [| j]; [lia |]. destruct i as [| i]; simpl in *.
      * injection Hi as <-. rewrite Forall_lookup in Hx. by eapply Hx.
      * eapply (IH i j); [lia | done..].
  - induction l as [| x l IH]; intros H; constructor.
    + apply IH. intros i j a b Hij Hi Hj. apply (H (S i) (S j)); [lia | done..].
    + apply Forall_lookup. intros j b Hj. apply (H O (S j)); [lia | done..].
Qed.

Lemma Order_lt_NoDup (fs : list Field) :
  StronglySorted Order_lt fs -> NoDup (Order <$> fs).
Proof.
  induction 1 as [| x l Hl IH Hx]; simpl; constructor; [| done].
  intros Hin. apply list_elem_of_fmap in Hin as (y & Hy & Hiny).
  rewrite Forall_forall in Hx. specialize (Hx y Hiny). unfold Order_lt in Hx. lia.
Qed.

Lemma Order_lt_le (fs : list Field) :
  StronglySorted Order_lt fs -> StronglySorted Order_le fs.
Proof.
  induction 1 as [| x l Hl IH Hx]; constructor; [done |].
  eapply Forall_impl; [exact Hx |]. unfold Order_lt, Order_le. intros; lia.
Qed.

Lemma int_wrap_small (z : Z) : - 2 ^ 63 <= z < 2 ^ 63 -> int_wrap z = z.
Proof.
  intros H. unfold int_wrap. rewrite Z.mod_small; lia.
Qed.

Lemma mkFields_lookup (index : Z) (v : list any) (i : nat) (f : Field) :
  mkFields index v !! i = Some f ->
  exists vv, v !! i = Some vv /\
             Order f = int_wrap (Z.of_nat i + index) /\
             Key f = "Field" +:+ itoa (Order f) /\
             Value f = vv.
Proof.
  unfold mkFields. rewrite list_lookup_imap.
  destruct (v !! i) as [vv |]; simpl; [| done].
  intros [= <-]. exists vv. done.
Qed.

Lemma mkFields_length (index : Z) (v : list any) :
  length (mkFields index v) = length v.
Proof. unfold mkFields. apply length_imap. Qed.

(** Without overflow of the index, [mkFields] numbers its fields upwards. *)
Lemma mkFields_strictly_ascending (index : Z) (v : list any) :
  - 2 ^ 63 <= index -> index + Z.of_nat (length v) <= 2 ^ 63 ->
  StronglySorted Order_lt (mkFields index v).
Proof.
  intros Hlo Hhi. apply StronglySorted_lookup. intros i j a b Hij Ha Hb.
  pose proof (lookup_lt_Some _ _ _ Hb) as Hlen. rewrite mkFields_length in Hlen.
  apply mkFields_lookup in Ha as (_ & _ & Ha & _).
  apply mkFields_lookup in Hb as (_ & _ & Hb & _).
  unfold Order_lt. rewrite Ha, Hb, !int_wrap_small; lia.
Qed.

Lemma mkFields_Key_not_Format (index : Z) (v : list any) (f : Field) :
  f ∈ mkFields index v -> Key f <> "Format".
Proof.
  intros Hin. apply list_elem_of_lookup in Hin as [i Hi].
  apply mkFields_lookup in Hi as (_ & _ & _ & HK & _).
  rewrite HK. discriminate.
Qed.

(** C4, as the code has it. For every template and every list of values (a
    Go slice holds at most [max_int] of them): the fields of [mkFields], from
    index 0 or 1, are in strictly ascending [Order], so no two share an
    [Order]; the fields of [mkFormatFields] are the [Format] field at
    [Order] 1 followed by [mkFields 1], in ascending but not strictly
    ascending [Order]: when there is a value, its first field has [Order] 1
    as well. *)
Theorem builders_ascending (format : string) (v : list any)
    (Hlen : Z.of_nat (length v) <= max_int) :
  (StronglySorted Order_lt (mkFields 0 v) /\ NoDup (Order <$> mkFields 0 v)) /\
  (StronglySorted Order_lt (mkFields 1 v) /\ NoDup (Order <$> mkFields 1 v)) /\
  mkFormatFields format v = mkField 1 "Format" (AString format) :: mkFields 1 v /\
  StronglySorted Order_le (mkFormatFields format v) /\
  (forall vv rest, v = vv :: rest ->
     Order <$> mkFormatFields format v = 1 :: 1 :: (Order <$> mkFields 2 rest)).
Proof.
  unfold max_int in Hlen.
  assert (H0 : StronglySorted Order_lt (mkFields 0 v))
    by (apply mkFields_strictly_ascending; lia).
  assert (H1 : StronglySorted Order_lt (mkFields 1 v))
    by (apply mkFields_strictly_ascending; lia).
  repeat split; auto using Order_lt_NoDup.
  - unfold mkFormatFields; simpl. constructor; [by apply Order_lt_le |].
    apply Forall_forall. intros f Hf.
    apply list_elem_of_lookup in Hf as [i Hi].
    pose proof (lookup_lt_Some _ _ _ Hi) as Hi'. rewrite mkFields_length in Hi'.
    apply mkFields_lookup in Hi as (_ & _ & HO & _).
    unfold Order_le; simpl. rewrite HO, int_wrap_small; lia.
  - intros vv rest ->. unfold mkFormatFields, mkFields; simpl.
    do 2 f_equal. rewrite !fmap_imap. apply imap_ext. intros i x _; simpl.
    f_equal. lia.
Qed.

Lemma builders_ascending_witness :
  Z.of_nat (length [AString "a"; AInt 7]) <= max_int /\
  StronglySorted Order_lt (mkFields 0 [AString "a"; AInt 7]) /\
  StronglySorted Order_le (mkFormatFields "%s-%d" [AString "a"; AInt 7]).
Proof.
  assert (H : Z.of_nat (length [AString "a"; AInt 7]) <= max_int)
    by (unfold max_int; simpl; lia).
  split; [exact H |].
  split; apply (builders_ascending "%s-%d" [AString "a"; AInt 7] H).
Defined.

(** C4, as stated, fails: the fields of [Printf("%s", "x")] are the [Format]
    field and the field of "x", both with [Order] 1. *)
Lemma mkFormatFields_duplicate_Order :
  Order <$> mkFormatFields "%s" [AString "x"] = [1; 1] /\
  ~ StronglySorted Order_lt (mkFormatFields "%s" [AString "x"]) /\
  ~ NoDup (Order <$> mkFormatFields "%s" [AString "x"]).
Proof.
  split; [reflexivity |]. split.
  - intros H. apply Order_lt_NoDup in H. apply NoDup_cons in H as [H _].
    apply H. simpl. left.
  - intros H. apply NoDup_cons in H as [H _]. apply H. simpl. left.
Qed.

(** ** The trace monad *)

Lemma bind_Done {A B} (t : list Event) (a : A) (k : A -> M B) :
  bind (t, Done a) k = (t ++ trace (k a), outcome (k a)).
Proof. unfold bind, trace, outcome. by destruct (k a). Qed.

Lemma bind_ret_l {A B} (a : A) (k : A -> M B) : bind (ret a) k = k a.
Proof. unfold ret. rewrite bind_Done. simpl. by destruct (k a). Qed.

Lemma bind_emit {B} (ev : Event) (k : unit -> M B) :
  bind (emit ev) k = (ev :: trace (k tt), outcome (k tt)).
Proof. unfold emit. by rewrite bind_Done. Qed.

Lemma bind_assoc {A B C} (m : M A) (k : A -> M B) (k' : B -> M C) :
  bind (bind m k) k' = bind m (fun a => bind (k a) k').
Proof.
  destruct m as [t [a | msg | code]]; simpl; [| done..].
  destruct (k a) as [t1 [b | msg | code]]; simpl; [| done..].
  destruct (k' b) as [t2 r]. by rewrite app_assoc.
Qed.

(** ** Firing hooks *)

Lemma hooks_Fire_registered (h : hooks) (at_ : Timing) (lv : Level) (e : EntryView) :
  hooks_Fire h at_ lv e
  = match registered h at_ lv with
    | Some l => Fire_range at_ lv 0 l e
    | None => ret None
    end.
Proof. reflexivity. Qed.

Lemma Fire_range_all_nil (at_ : Timing) (lv : Level) (e : EntryView)
    (l : list Hook) (i : nat) :
  (forall hk, hk ∈ l -> hk e = Done None) ->
  Fire_range at_ lv i l e = (EvHook at_ lv <$> seq i (length l), Done None).
Proof.
  revert i. induction l as [| hk l IH]; intros i H; [done |].
  cbn [Fire_range]. rewrite bind_assoc, bind_emit. unfold lift.
  rewrite (H hk) by left. rewrite bind_Done. simpl.
  rewrite IH by (intros; apply H; by right). done.
Qed.

Lemma Fire_range_first_error (at_ : Timing) (lv : Level) (e : EntryView)
    (l1 : list Hook) (hk : Hook) (l2 : list Hook) (err : error) (i : nat) :
  (forall h', h' ∈ l1 -> h' e = Done None) -> hk e = Done (Some err) ->
  Fire_range at_ lv i (l1 ++ hk :: l2) e
  = (EvHook at_ lv <$> seq i (S (length l1)), Done (Some err)).
Proof.
  revert i. induction l1 as [| h1 l1 IH]; intros i H Hk.
  - cbn [Fire_range app]. rewrite bind_assoc, bind_emit. unfold lift.
    rewrite Hk. done.
  - cbn [Fire_range app]. rewrite bind_assoc, bind_emit. unfold lift.
    rewrite (H h1) by left. rewrite bind_Done. simpl.
    rewrite IH by (try done; intros; apply H; by right). done.
Qed.

(** Whatever the hooks do, firing invokes a prefix of the registered list,
    in order, and nothing else. *)
Lemma Fire_range_trace (at_ : Timing) (lv : Level) (e : EntryView)
    (l : list Hook) (i : nat) :
  exists k, (k <= length l)%nat /\
            trace (Fire_range at_ lv i l e) = EvHook at_ lv <$> seq i k.
Proof.
  revert i. induction l as [| hk l IH]; intros i.
  - exists 0%nat. done.
  - cbn [Fire_range]. rewrite bind_assoc, bind_emit. unfold lift.
    destruct (hk e) as [[err |] | msg | code]; simpl;
      try (exists 1%nat; split; [simpl; lia | done]).
    destruct (IH (S i)) as (k & Hk & Ht). exists (S k). split; [simpl; lia |].
    destruct (Fire_range at_ lv (S i) l e) as [t r]; simpl in *. by rewrite Ht.
Qed.

Lemma hooks_Fire_trace (h : hooks) (at_ : Timing) (lv : Level) (e : EntryView) :
  exists k, trace (hooks_Fire h at_ lv e) = EvHook at_ lv <$> seq 0 k.
Proof.
  rewrite hooks_Fire_registered. destruct (registered h at_ lv) as [l |].
  - destruct (Fire_range_trace at_ lv e l 0) as (k & _ & Hk). by exists k.
  - by exists 0%nat.
Qed.

Lemma fire_trace (at_ : Timing) (lv : Level) (e : entry) :
  Forall (fire_event at_ lv) (trace (fire at_ lv e)).
Proof.
  unfold fire.
  destruct (hooks_Fire_trace (logger_Hooks (entry_Logger e)) at_ lv (view e)) as [k Hk].
  assert (Hh : Forall (fire_event at_ lv) (EvHook at_ lv <$> seq 0 k)).
  { apply Forall_fmap, Forall_forall. intros i _. left. by exists i. }
  destruct (hooks_Fire _ at_ lv (view e)) as [t [[err |] | msg | code]];
    unfold bind, emit, ret, trace in *; simpl in *; subst t; [| by rewrite app_nil_r | done..].
  apply Forall_app. split; [done |]. apply Forall_singleton. right. by eexists.
Qed.

Lemma hooks_AddHook_registered (h h' : hooks) (t : Timing) (l : Level) (hk : list Hook) :
  hooks_AddHook h t l hk = Done h' ->
  registered h' t l = Some (default [] (registered h t l) ++ hk) /\
  (forall t' l', (t', l') <> (t, l) -> registered h' t' l' = registered h t' l').
Proof.
  unfold hooks_AddHook, registered.
  destruct (has h !! t) as [m |] eqn:E; [| done]. intros [= <-]. simpl. split.
  - rewrite lookup_insert_eq. simpl. by rewrite lookup_insert_eq.
  - intros t' l' Hne. destruct (decide (t' = t)) as [-> | Ht].
    + rewrite lookup_insert_eq, E. simpl.
      rewrite lookup_insert_ne; [done | congruence].
    + by rewrite lookup_insert_ne.
Qed.

(** ** The pipeline *)

Lemma Fire_range_silent (at_ : Timing) (lv : Level) (e : EntryView)
    (l : list Hook) (i : nat) :
  trace (Fire_range at_ lv i l e) = [] -> Fire_range at_ lv i l e = ret None.
Proof.
  destruct l as [| hk l]; [done |].
  cbn [Fire_range]. rewrite bind_assoc, bind_emit. done.
Qed.

Lemma fire_silent (at_ : Timing) (lv : Level) (e : entry) :
  trace (fire at_ lv e) = [] -> fire at_ lv e = ret tt.
Proof.
  unfold fire. rewrite hooks_Fire_registered.
  destruct (registered _ at_ lv) as [l |]; [| done].
  intros H. rewrite Fire_range_silent; [done |].
  destruct (Fire_range at_ lv 0 l (view e)) as [t [[err |] | msg | code]];
    unfold bind, emit, ret, trace in *; simpl in *; try done.
  - by destruct t.
  - by rewrite app_nil_r in H.
Qed.

(** What [read] does, by what the formatter returns. *)
Lemma read_cases (e : entry) :
  read e
  = match logger_Formatter (entry_Logger e) (view e) with
    | Done r =>
        (EvFormat :: read_diag (rendered_err r),
         Done (entry_with_fields e (rendered_fields r), rendered_bytes r))
    | Panic msg => ([EvFormat], Panic msg)
    | Exit code => ([EvFormat], Exit code)
    end.
Proof.
  unfold read, entry_Read, lift. rewrite bind_assoc, bind_emit.
  by destruct (logger_Formatter _ _) as [[fds bs [err |]] | msg | code].
Qed.

(** An empty buffer is not written; a buffer that holds bytes is handed to
    the sink in one [Write], followed at most by a diagnostic. *)
Lemma copy_empty (e : entry) : copy e "" = ret tt.
Proof. reflexivity. Qed.

Lemma copy_nonempty (e : entry) (r : string) :
  r <> "" ->
  exists d, trace (copy e r) = EvWrite r :: d /\
            (d = [] \/ exists msg, d = [EvStdout msg]).
Proof.
  intros Hr. unfold copy, io_Copy.
  assert ((0 <? Z.of_nat (String.length r)) = true) as ->.
  { apply Z.ltb_lt. destruct r; [done | simpl; lia]. }
  rewrite bind_assoc, bind_emit.
  destruct (logger_Writer (entry_Logger e) r) as [m [err |]];
    destruct (Z.of_nat (String.length r) <? m); simpl;
    try destruct (m =? Z.of_nat (String.length r)); simpl; eauto.
Qed.

Lemma log_trace_nonempty (e : entry) : trace (log e) <> [].
Proof.
  unfold log.
  destruct (trace (fire PRE (entry_EntryLevel e) e)) as [| ev t] eqn:E.
  - rewrite (fire_silent _ _ _ E), bind_ret_l, read_cases.
    by destruct (logger_Formatter _ _) as [r | msg | code]; rewrite ?bind_Done.
  - destruct (fire PRE (entry_EntryLevel e) e) as [t1 [[] | msg | code]];
      simpl in E; subst t1; [| done..].
    rewrite bind_Done. done.
Qed.

Lemma log_not_silent (e : entry) : log e <> ret tt.
Proof. intros H. apply (log_trace_nonempty e). by rewrite H. Qed.

(** The trace of [log]: hooks fired before rendering; rendering and copying;
    hooks fired after.  A later part is there only if every earlier part
    returned. *)
Lemma log_split (e : entry) :
  exists t1 t23 t4,
    trace (log e) = t1 ++ t23 ++ t4 /\
    Forall (fire_event PRE (entry_EntryLevel e)) t1 /\
    Forall render_event t23 /\
    Forall (fire_event POST (entry_EntryLevel e)) t4 /\
    (t4 <> [] ->
     exists r,
       logger_Formatter (entry_Logger e) (view e) = Done r /\
       EvFormat ∈ t23 /\
       (rendered_bytes r <> "" -> EvWrite (rendered_bytes r) ∈ t23)).
Proof.
  pose proof (fire_trace PRE (entry_EntryLevel e) e) as H1.
  unfold log.
  destruct (fire PRE (entry_EntryLevel e) e) as [t1 [[] | msg | code]];
    simpl in H1;
    [| exists t1, [], []; rewrite !app_nil_r; by repeat split ..].
  rewrite bind_Done, read_cases.
  destruct (logger_Formatter _ _) as [r | msg | code] eqn:EF;
    [| exists t1, [EvFormat], []; simpl;
       (repeat split; [done | by repeat constructor; left | done | done]) ..].
  destruct r as [fds bs err]. cbn [rendered_fields rendered_bytes rendered_err].
  set (e' := entry_with_fields e fds).
  pose proof (fire_trace POST (entry_EntryLevel e') e') as H4.
  change (entry_EntryLevel e') with (entry_EntryLevel e) in H4.
  assert (Hd2 : Forall render_event (EvFormat :: read_diag err)).
  { constructor; [by left |]. destruct err; [| done].
    apply Forall_singleton. right; right. by eexists. }
  rewrite bind_Done. cbn beta iota.
  assert (Hc : exists t3, trace (copy e' bs) = t3 /\ Forall render_event t3 /\
                          (bs <> "" -> EvWrite bs ∈ t3)).
  { destruct (decide (bs = "")) as [-> | Hbs].
    - exists []. by rewrite copy_empty.
    - destruct (copy_nonempty e' bs Hbs) as (d & Hd & Hdd). exists (EvWrite bs :: d).
      split; [done |]. split; [| intros; left].
      constructor; [right; left; by eexists |].
      destruct Hdd as [-> | [msg ->]]; [done |].
      apply Forall_singleton. right; right. by eexists. }
  destruct Hc as (t3 & Ht3 & Hr3 & Hw3).
  destruct (copy e' bs) as [t3' [[] | msg | code]]; simpl in Ht3; subst t3'.
  - rewrite bind_Done. simpl.
    exists t1, ((EvFormat :: read_diag err) ++ t3),
      (trace (fire POST (entry_EntryLevel e) e')).
    split; [by rewrite <- !app_assoc |]. split; [done |].
    split; [by apply Forall_app |]. split; [done |].
    intros _. eexists. split; [done |]. split; [set_solver |].
    simpl. intros Hbs. specialize (Hw3 Hbs). set_solver.
  - exists t1, ((EvFormat :: read_diag err) ++ t3), []. simpl. rewrite app_nil_r.
    split; [done |]. split; [done |]. split; [by apply (Forall_app _ (_ :: _)) |].
    done.
  - exists t1, ((EvFormat :: read_diag err) ++ t3), []. simpl. rewrite app_nil_r.
    split; [done |]. split; [done |]. split; [by apply (Forall_app _ (_ :: _)) |].
    done.
Qed.

Lemma gated_emits (g : bool) (e : entry) (gate : Prop) :
  (g = true <-> gate) -> emits_iff (if g then log e else ret tt) e gate.
Proof.
  intros Hg. pose proof (log_not_silent e) as Hlog.
  destruct g; split; split.
  - intros _. by apply Hg.
  - done.
  - intros H. by destruct Hlog.
  - intros Hn. destruct Hn. by apply Hg.
  - intros H. by destruct Hlog.
  - intros Hgate. by apply Hg in Hgate.
  - intros _ Hgate. by apply Hg in Hgate.
  - done.
Qed.

Lemma geb_ge (m n : Z) : (m >=? n) = true <-> m >= n.
Proof. rewrite Z.geb_le. lia. Qed.

(** C1. Level gating by call family, for a logger with minimum level [m]:
    [Fatal], [Fatalf] and [Fatalln] put a record at [LFatal] through the
    pipeline if and only if [m >= LFatal] (and do nothing otherwise);
    [Panic], [Panicf], [Panicln] one at [LPanic] iff [m >= LPanic];
    [Print], [Printf], [Println] emit iff [m >= LError], and their record
    carries [LInfo]; [At] and [Atf] always emit, whatever [m] is. *)
Theorem level_gating (l : logger) (lv : Level) (format : string) (v : list any) :
  let m := logger_level l in
  (emits_iff (logger_Fatal l v) (newEntry l LFatal (mkFields 0 v)) (m >= LFatal) /\
   emits_iff (logger_Fatalf l format v)
     (newEntry l LFatal (mkFormatFields format v)) (m >= LFatal) /\
   emits_iff (logger_Fatalln l v) (newEntry l LFatal (mkFields 0 v)) (m >= LFatal)) /\
  (emits_iff (logger_Panic l v) (newEntry l LPanic (mkFields 0 v)) (m >= LPanic) /\
   emits_iff (logger_Panicf l format v)
     (newEntry l LPanic (mkFormatFields format v)) (m >= LPanic) /\
   emits_iff (logger_Panicln l v) (newEntry l LPanic (mkFields 0 v)) (m >= LPanic)) /\
  (emits_iff (logger_Print l v) (newEntry l LInfo (mkFields 0 v)) (m >= LError) /\
   emits_iff (logger_Printf l format v)
     (newEntry l LInfo (mkFormatFields format v)) (m >= LError) /\
   emits_iff (logger_Println l v) (newEntry l LInfo (mkFields 0 v)) (m >= LError)) /\
  (logger_At l lv v = log (newEntry l lv (mkFields 0 v)) /\
   logger_Atf l lv format v = log (newEntry l lv (mkFormatFields format v)) /\
   logger_At l lv v <> ret tt /\ logger_Atf l lv format v <> ret tt) /\
  (forall fs, entry_EntryLevel (newEntry l LFatal fs) = LFatal /\
              entry_EntryLevel (newEntry l LPanic fs) = LPanic /\
              entry_EntryLevel (newEntry l LInfo fs) = LInfo).
Proof.
  cbv zeta.
  unfold logger_Panicln, logger_Fatal, logger_Fatalf, logger_Fatalln, logger_Panic,
    logger_Panicf, logger_Print, logger_Printf, logger_Println, logger_At, logger_Atf.
  repeat split; try (apply gated_emits, geb_ge); try apply log_not_silent.
Qed.

(** C7. Firing matches the exact (timing, level) pair.  With nothing
    registered for the pair, [Fire] does nothing and returns nil.  With a
    list registered, it invokes the hooks in the order of the list -- which
    is the order of registration, [AddHook] appending to the list of its own
    pair and touching no other -- up to and including the first one that
    returns an error, which it returns; if none does, it invokes all and
    returns nil.  A record put through [log] fires hooks at its effective
    level only, so a hook registered at another level does not fire. *)
Theorem Fire_exact_pair (h : hooks) (at_ : Timing) (lv : Level) (e : EntryView) :
  (registered h at_ lv = None -> hooks_Fire h at_ lv e = ret None) /\
  (forall l, registered h at_ lv = Some l ->
     ((forall hk, hk ∈ l -> hk e = Done None) ->
      hooks_Fire h at_ lv e = (EvHook at_ lv <$> seq 0 (length l), Done None)) /\
     (forall l1 hk l2 err,
        l = l1 ++ hk :: l2 ->
        (forall h', h' ∈ l1 -> h' e = Done None) -> hk e = Done (Some err) ->
        hooks_Fire h at_ lv e
        = (EvHook at_ lv <$> seq 0 (S (length l1)), Done (Some err)))) /\
  (forall hk h',
     hooks_AddHook h at_ lv hk = Done h' ->
     registered h' at_ lv = Some (default [] (registered h at_ lv) ++ hk) /\
     (forall t' l', (t', l') <> (at_, lv) -> registered h' t' l' = registered h t' l')) /\
  (forall (en : entry) t l' i,
     EvHook t l' i ∈ trace (log en) ->
     l' = entry_EntryLevel en /\ (t = PRE \/ t = POST)).
Proof.
  rewrite hooks_Fire_registered.
  split; [by intros -> |].
  split.
  { intros l ->. split; [by apply Fire_range_all_nil |].
    intros l1 hk l2 err -> Hl1 Hhk. by apply Fire_range_first_error. }
  split; [intros hk h' H; by apply hooks_AddHook_registered |].
  intros en t l' i H.
  destruct (log_split en) as (t1 & t23 & t4 & Ht & H1 & H23 & H4 & _).
  rewrite Ht, !elem_of_app in H.
  rewrite Forall_forall in H1, H23, H4.
  destruct H as [H | [H | H]].
  - destruct (H1 _ H) as [[j [= -> -> ->]] | [msg [=]]]. split; [done | by left].
  - destruct (H23 _ H) as [[=] | [[p [=]] | [msg [=]]]].
  - destruct (H4 _ H) as [[j [= -> -> ->]] | [msg [=]]]. split; [done | by right].
Qed.

(** [TestHook]: on a logger at [LDebug], a hook registered for
    [(POST, LError)] does not fire when [Print] logs (at [LInfo]); one
    registered for [(POST, LDebug)] fires when an entry at [LDebug] is
    logged. *)
Example TestHook_scenario :
  (forall h1, hooks_AddHook builtin_hooks POST LError [testHook] = Done h1 ->
     let l1 := mkLogger bytes_Buffer LDebug (@RawFormatter_Format go_insertion) ∅ h1 in
     logger_Print l1 [AString "RUN1"] = ([EvFormat; EvWrite ("RUN1" +:+ nl)], Done tt)) /\
  (forall h2, hooks_AddHook builtin_hooks POST LDebug [testHook] = Done h2 ->
     let l2 := mkLogger bytes_Buffer LDebug (@RawFormatter_Format go_insertion) ∅ h2 in
     logger_Log l2 (newEntry l2 LDebug (mkFields 0 [AString "RUN2"]))
     = ([EvFormat; EvWrite ("RUN2" +:+ nl); EvHook POST LDebug 0], Done tt)).
Proof.
  split; intros h [= <-]; reflexivity.
Qed.







(** C9, as the code has it. When the active formatter returns an error, the
    error is printed on the diagnostic stream (standard output) and the call
    goes on as after a successful rendering: the bytes returned along with
    the error are copied to the sink -- nothing is written only when there
    are none --, the hooks fire, and no error reaches the caller, who sees
    the call return unless a hook exits or panics. *)
Theorem render_error_reported (e : entry) (fds : list Field) (bs : string) (err : error)
    (HF : logger_Formatter (entry_Logger e) (view e)
          = Done (mkRendered fds bs (Some err))) :
  let lv := entry_EntryLevel e in
  let e' := entry_with_fields e fds in
  let diag := EvStdout ("log: Failed to obtain reader -- " +:+ err +:+ nl) in
  log e = (fire PRE lv e >> emit EvFormat >> emit diag >> copy e' bs >> fire POST lv e') /\
  (bs = "" -> copy e' bs = ret tt) /\
  (bs <> "" -> exists d, trace (copy e' bs) = EvWrite bs :: d) /\
  (registered (logger_Hooks (entry_Logger e)) PRE lv = None ->
   registered (logger_Hooks (entry_Logger e)) POST lv = None ->
   (bs = "" -> log e = ([EvFormat; diag], Done tt)) /\
   (bs <> "" ->
    logger_Writer (entry_Logger e) bs = (Z.of_nat (String.length bs), None) ->
    log e = ([EvFormat; diag; EvWrite bs], Done tt))).
Proof.
  cbv zeta.
  assert (Hlog : log e
    = (fire PRE (entry_EntryLevel e) e >> emit EvFormat >>
       emit (EvStdout ("log: Failed to obtain reader -- " +:+ err +:+ nl)) >>
       copy (entry_with_fields e fds) bs >>
       fire POST (entry_EntryLevel e) (entry_with_fields e fds))).
  { unfold log. rewrite read_cases, HF.
    destruct (fire PRE (entry_EntryLevel e) e) as [t [[] | |]]; [| done..].
    rewrite !bind_Done, !bind_emit. done. }
  split; [exact Hlog |]. split; [by intros -> |].
  split.
  { intros Hbs.
    destruct (copy_nonempty (entry_with_fields e fds) bs Hbs) as (d & Hd & _).
    by exists d. }
  intros Hpre Hpost. rewrite Hlog. unfold fire.
  cbn [entry_with_fields entry_Logger].
  rewrite !hooks_Fire_registered, Hpre, Hpost, !bind_ret_l, !bind_emit.
  split.
  - intros ->. reflexivity.
  - intros Hbs HW.
    assert (Hcopy : copy (entry_with_fields e fds) bs = ([EvWrite bs], Done tt)).
    { unfold copy, io_Copy. cbn [entry_with_fields entry_Logger]. rewrite HW.
      assert ((0 <? Z.of_nat (String.length bs)) = true) as ->.
      { apply Z.ltb_lt. destruct bs; [done | simpl; lia]. }
      by rewrite Z.ltb_irrefl, Z.eqb_refl. }
    rewrite Hcopy. reflexivity.
Qed.

Lemma render_error_reported_witness :
  log (newEntry failing_logger LInfo [])
  = ([EvFormat; EvStdout ("log: Failed to obtain reader -- boom" +:+ nl);
      EvWrite "partial"], Done tt).
Proof.
  apply (render_error_reported (newEntry failing_logger LInfo []) [] "partial" "boom");
    reflexivity || discriminate.
Defined.

(** C9, as stated, fails: a formatter that returns bytes along with its
    error has those bytes written to the sink. *)
Lemma render_error_still_written :
  log (newEntry failing_logger LInfo [])
  = ([EvFormat; EvStdout ("log: Failed to obtain reader -- boom" +:+ nl);
      EvWrite "partial"], Done tt) /\
  EvWrite "partial" ∈ trace (log (newEntry failing_logger LInfo [])) /\
  ~ (forall (e : entry) (r : Rendered) (err : error),
       logger_Formatter (entry_Logger e) (view e) = Done r ->
       rendered_err r = Some err ->
       forall p, EvWrite p ∉ trace (log e)).
Proof.
  assert (Hw : EvWrite "partial" ∈ trace (log (newEntry failing_logger LInfo [])))
    by (simpl; set_solver).
  split; [reflexivity |]. split; [exact Hw |].
  intros H.
  exact (H (newEntry failing_logger LInfo []) (mkRendered [] "partial" (Some "boom"))
           "boom" eq_refl eq_refl "partial" Hw).
Qed.

(** ** The two sorts of the reference runtimes *)

Lemma list_insert_Permutation {A} (l : list A) (i : nat) (x y : A) :
  l !! i = Some y -> <[i := x]> l ≡ₚ x :: delete i l.
Proof.
  intros H. pose proof (lookup_lt_Some _ _ _ H) as Hlt.
  rewrite insert_take_drop, delete_take_drop by done.
  symmetry. apply Permutation_middle.
Qed.

Lemma FieldsSort_Swap_Permutation (f f' : FieldsSort) (i j : nat) :
  FieldsSort_Swap f i j = Done f' -> f' ≡ₚ f.
Proof.
  unfold FieldsSort_Swap.
  destruct (f !! i) as [a |] eqn:Hi; [| done].
  destruct (f !! j) as [b |] eqn:Hj; [| done].
  intros [= <-]. revert i j Hi Hj.
  induction f as [| x f IH]; intros i j Hi Hj; [done |].
  destruct i as [| i], j as [| j]; simpl in *; simplify_eq.
  - done.
  - trans (b :: a :: delete j f).
    + constructor. by eapply list_insert_Permutation.
    + rewrite perm_swap. constructor. symmetry. by apply delete_Permutation.
  - trans (a :: b :: delete i f).
    + constructor. by eapply list_insert_Permutation.
    + rewrite perm_swap. constructor. symmetry. by apply delete_Permutation.
  - constructor. by apply IH.
Qed.

Lemma insertion_inner_sift (rp : list Field) (x : Field) (rest : list Field) :
  insertion_inner (reverse rp ++ x :: rest) 0 (length rp)
  = Done (reverse (sift x rp) ++ rest).
Proof.
  revert rest. induction rp as [| y r IH]; intros rest; [done |].
  cbn [length insertion_inner]. 
  replace (0 <? S (length r))%nat with true by (symmetry; apply Nat.ltb_lt; lia).
  assert (Hx : (reverse (y :: r) ++ x :: rest) !! S (length r) = Some x).
  { rewrite <- (length_reverse (y :: r)) at 1. apply list_lookup_middle. done. }
  assert (Hy : (reverse (y :: r) ++ x :: rest) !! length r = Some y).
  { rewrite reverse_cons, <- app_assoc. rewrite <- (length_reverse r) at 1.
    by apply list_lookup_middle. }
  unfold FieldsSort_Less, FieldsSort_Swap. rewrite Hx, Hy. cbn [obind sift].
  destruct (Order x <? Order y) eqn:E;
    [| by rewrite (reverse_cons _ x), <- app_assoc]. cbn [obind].
  replace (<[S (length r) := y]> (<[length r := x]> (reverse (y :: r) ++ x :: rest)))
    with (reverse r ++ x :: y :: rest).
  { rewrite IH. by rewrite reverse_cons, <- app_assoc. }
  rewrite reverse_cons, <- app_assoc. simpl.
  rewrite <- (length_reverse r).
  rewrite (insert_app_r_alt _ _ (length (reverse r))) by lia.
  rewrite Nat.sub_diag. simpl.
  rewrite (insert_app_r_alt _ _ (S (length (reverse r)))) by lia.
  replace (S (length (reverse r)) - length (reverse r))%nat with 1%nat by lia.
  done.
Qed.

Lemma insertion_outer_sift (rp rest : list Field) :
  insertion_outer (reverse rp ++ rest) 0 (length rp) (length rest)
  = Done (reverse (foldl (fun acc x => sift x acc) rp rest)).
Proof.
  revert rp. induction rest as [| x rest IH]; intros rp.
  - simpl. by rewrite app_nil_r.
  - cbn [length insertion_outer foldl]. rewrite insertion_inner_sift. cbn [obind].
    specialize (IH (sift x rp)).
    replace (length (sift x rp)) with (S (length rp)) in IH; [done |].
    clear. induction rp as [| y r IH]; simpl; [done |].
    destruct (Order x <? Order y); simpl; lia.
Qed.

Lemma insertionSort_isort (data : FieldsSort) :
  insertionSort data 0 (FieldsSort_Len data) = Done (isort data).
Proof.
  unfold insertionSort, FieldsSort_Len, isort.
  destruct data as [| x rest]; [done |].
  simpl length. replace (S (length rest) - 1)%nat with (length rest) by lia.
  apply (insertion_outer_sift [x] rest).
Qed.

Lemma sift_Permutation (x : Field) (rp : list Field) : sift x rp ≡ₚ x :: rp.
Proof.
  induction rp as [| y r IH]; simpl; [done |].
  destruct (Order x <? Order y); [| done].
  rewrite IH. apply perm_swap.
Qed.

Lemma isort_Permutation (data : list Field) : isort data ≡ₚ data.
Proof.
  unfold isort. rewrite reverse_Permutation.
  assert (H : forall acc, foldl (fun acc x => sift x acc) acc data ≡ₚ acc ++ data).
  { induction data as [| x data IH]; intros acc; simpl.
    - by rewrite app_nil_r.
    - rewrite IH, sift_Permutation. by rewrite <- Permutation_middle. }
  apply (H []).
Qed.

Lemma sift_sorted (x : Field) (rp : list Field) :
  StronglySorted (flip Order_le) rp -> StronglySorted (flip Order_le) (sift x rp).
Proof.
  induction 1 as [| y r Hr IH Hy]; simpl.
  - repeat constructor.
  - destruct (Z.ltb_spec (Order x) (Order y)).
    + constructor; [done |]. rewrite sift_Permutation. constructor; [| done].
      unfold flip, Order_le. lia.
    + constructor; [by constructor |]. constructor; [unfold flip, Order_le; lia |].
      eapply Forall_impl; [exact Hy |]. unfold flip, Order_le. intros; lia.
Qed.

Lemma StronglySorted_reverse {A} (R : relation A) (l : list A) :
  StronglySorted (flip R) l -> StronglySorted R (reverse l).
Proof.
  induction 1 as [| x l Hl IH Hx]; [constructor |].
  rewrite reverse_cons. apply StronglySorted_app_2; [| done | repeat constructor].
  intros x1 x2 H1 H2. apply list_elem_of_singleton in H2 as ->.
  rewrite elem_of_reverse in H1. rewrite Forall_forall in Hx. exact (Hx _ H1).
Qed.

Lemma isort_sorted (data : list Field) : StronglySorted Order_le (isort data).
Proof.
  unfold isort. apply StronglySorted_reverse.
  assert (H : forall acc, StronglySorted (flip Order_le) acc ->
                          StronglySorted (flip Order_le)
                            (foldl (fun acc x => sift x acc) acc data)).
  { induction data as [| x data IH]; intros acc Hacc; simpl; [done |].
    by apply IH, sift_sorted. }
  apply H. constructor.
Qed.

(** A slice in ascending [Order] has no element [Less] than an earlier one. *)
Lemma sorted_Less (fds : list Field) (i j : nat) :
  StronglySorted Order_le fds -> (i < j < length fds)%nat ->
  FieldsSort_Less fds j i = Done false.
Proof.
  intros Hs [Hij Hj]. unfold FieldsSort_Less.
  destruct (lookup_lt_is_Some_2 fds j Hj) as [b Hb].
  destruct (lookup_lt_is_Some_2 fds i ltac:(lia)) as [a Ha].
  rewrite Ha, Hb. f_equal. apply Z.ltb_ge.
  rewrite StronglySorted_lookup in Hs. by apply (Hs i j).
Qed.

Lemma Less_sorted (fds : list Field) :
  (forall i j, (i < j < length fds)%nat -> FieldsSort_Less fds j i = Done false) ->
  StronglySorted Order_le fds.
Proof.
  intros H. apply StronglySorted_lookup. intros i j a b Hij Ha Hb.
  specialize (H i j (conj Hij (lookup_lt_Some _ _ _ Hb))).
  unfold FieldsSort_Less in H. rewrite Ha, Hb in H.
  injection H as H. apply Z.ltb_ge in H. exact H.
Qed.

Lemma Sort_insertion_isort (data : list Field) : Sort_insertion data = isort data.
Proof. unfold Sort_insertion. by rewrite insertionSort_isort. Qed.

Lemma shell_pass_Permutation (n : nat) (data : list Field) (i : nat) :
  (n = 0 \/ i + n <= length data)%nat ->
  exists data', shell_pass data i n = Done data' /\ data' ≡ₚ data.
Proof.
  revert data i. induction n as [| n IH]; intros data i Hn; [by exists data |].
  destruct Hn as [Hn | Hn]; [done |]. cbn [shell_pass].
  destruct (lookup_lt_is_Some_2 data i ltac:(lia)) as [a Ha].
  destruct (lookup_lt_is_Some_2 data (i - 6) ltac:(lia)) as [b Hb].
  unfold FieldsSort_Less at 1. rewrite Ha, Hb. cbn [obind].
  destruct (Order a <? Order b).
  - unfold FieldsSort_Swap at 1. rewrite Ha, Hb. cbn [obind].
    assert (Hp : <[i := b]> (<[(i - 6)%nat := a]> data) ≡ₚ data).
    { apply (FieldsSort_Swap_Permutation data _ i (i - 6)%nat).
      unfold FieldsSort_Swap. by rewrite Ha, Hb. }
    destruct (IH (<[i := b]> (<[(i - 6)%nat := a]> data)) (S i)) as (d & Hd & Hp').
    { right. rewrite Hp. lia. }
    exists d. split; [done |]. by rewrite Hp'.
  - cbn [obind]. apply IH. right. lia.
Qed.

Lemma Sort_shell_isort (data : list Field) :
  exists data', data' ≡ₚ data /\ Sort_shell data = isort data'.
Proof.
  unfold Sort_shell, shellInsertionSort, FieldsSort_Len.
  destruct (1 <? length data - 0)%nat eqn:E.
  - destruct (shell_pass_Permutation (length data - (0 + 6)) data (0 + 6)) as (d & Hd & Hp).
    { lia. }
    exists d. split; [done |]. rewrite Hd. cbn [obind].
    rewrite <- (Permutation_length Hp).
    pose proof (insertionSort_isort d) as Hi. unfold FieldsSort_Len in Hi.
    by rewrite Hi.
  - exists data. split; [done |]. simpl.
    apply Nat.ltb_ge in E.
    destruct data as [| x [| y data]]; [done | done | simpl in E; lia].
Qed.

Lemma mini_Sprintf_s_string (s : string) : mini_Sprintf "%s" [AString s] = s.
Proof.
  change (mini_Sprintf "%s" [AString s]) with (s +:+ "").
  induction s as [| c s IH]; [done |].
  change (String c s +:+ "") with (String c (s +:+ "")). by rewrite IH.
Qed.

Lemma go_insertion_laws : GoRuntimeLaws go_insertion.
Proof.
  split; simpl.
  - intros fds. rewrite Sort_insertion_isort. apply isort_Permutation.
  - intros fds i j Hij. rewrite Sort_insertion_isort.
    apply sorted_Less; [apply isort_sorted |].
    by rewrite isort_Permutation.
  - apply mini_Sprintf_s_string.
Qed.

Lemma go_shell_laws : GoRuntimeLaws go_shell.
Proof.
  split; simpl.
  - intros fds. destruct (Sort_shell_isort fds) as (d & Hp & ->).
    by rewrite isort_Permutation.
  - intros fds i j Hij. destruct (Sort_shell_isort fds) as (d & Hp & ->).
    apply sorted_Less; [apply isort_sorted |].
    by rewrite isort_Permutation, Hp.
  - apply mini_Sprintf_s_string.
Qed.

(** ** Rendering *)

Lemma append_nil_r' (s : string) : s +:+ "" = s.
Proof.
  induction s as [| c s IH]; [done |].
  change (String c s +:+ "") with (String c (s +:+ "")). by rewrite IH.
Qed.

Lemma append_assoc' (s1 s2 s3 : string) : (s1 +:+ s2) +:+ s3 = s1 +:+ (s2 +:+ s3).
Proof.
  induction s1 as [| c s1 IH]; [done |].
  change ((String c s1 +:+ s2) +:+ s3) with (String c ((s1 +:+ s2) +:+ s3)).
  by rewrite IH.
Qed.

Lemma Fprintf_each_concat (go : GoRuntime) (b : string) (ff : list any) :
  Fprintf_each b ff = b +:+ string_concat ((fun v => fmt_Sprintf "%s" [v]) <$> ff).
Proof.
  revert b. induction ff as [| v ff IH]; intros b; simpl.
  - by rewrite append_nil_r'.
  - by rewrite IH, append_assoc'.
Qed.

Lemma Key_eqb (fd : Field) :
  String.eqb (Key fd) "Format" = bool_decide (Key fd = "Format").
Proof.
  destruct (String.eqb_spec (Key fd) "Format") as [H | H].
  - by rewrite bool_decide_eq_true_2.
  - by rewrite bool_decide_eq_false_2.
Qed.

Lemma non_Format_cons (fd : Field) (fds : list Field) :
  non_Format (fd :: fds)
  = if decide (Key fd = "Format") then non_Format fds else fd :: non_Format fds.
Proof.
  unfold non_Format. rewrite filter_cons.
  destruct (decide (Key fd = "Format")), (decide (Key fd <> "Format")); done.
Qed.

(** [formatTo] on fields whose templates are strings. *)
Lemma formatTo_from_strings (fds : list Field) (fm : bool) (f : string) (ff : list any) :
  string_templates fds ->
  formatTo_from fm f ff fds
  = Done (match last (templates fds) with Some _ => true | None => fm end,
          default f (last (templates fds)),
          ff ++ operands fds).
Proof.
  revert fm f ff. induction fds as [| fd fds IH]; intros fm f ff Hs.
  - simpl. by rewrite app_nil_r.
  - assert (Hs' : string_templates fds) by (intros x Hx; apply Hs; by right).
    cbn [formatTo_from]. rewrite Key_eqb.
    unfold operands, templates. rewrite non_Format_cons. cbn [omap list_omap].
    destruct (decide (Key fd = "Format")) as [HK | HK].
    + rewrite bool_decide_eq_true_2 by done.
      destruct (Hs fd ltac:(left) HK) as [s Hv]. rewrite Hv. cbn [assert_string obind].
      rewrite IH by done. fold (templates fds). fold (operands fds).
      rewrite last_cons. by destruct (last (templates fds)).
    + rewrite bool_decide_eq_false_2 by done.
      rewrite IH by done. fold (templates fds). fold (operands fds).
      rewrite fmap_cons. by rewrite <- app_assoc.
Qed.

(** [formatTo] on fields one of whose templates is not a string. *)
Lemma formatTo_from_panics (fds : list Field) (fm : bool) (f : string) (ff : list any)
    (fd : Field) :
  fd ∈ fds -> Key fd = "Format" -> (forall s, Value fd <> AString s) ->
  exists msg, formatTo_from fm f ff fds = Panic msg.
Proof.
  intros Hin HK Hv. revert fm f ff.
  induction fds as [| x fds IH]; intros fm f ff; [by apply elem_of_nil in Hin |].
  cbn [formatTo_from]. destruct (String.eqb_spec (Key x) "Format") as [Hx | Hx].
  - destruct (Value x) as [s | n | b |] eqn:E; cbn [assert_string obind]; eauto.
    apply elem_of_cons in Hin as [-> | Hin]; [by destruct (Hv s) | by apply IH].
  - apply elem_of_cons in Hin as [-> | Hin]; [done | by apply IH].
Qed.

Lemma string_templates_Permutation (l l' : list Field) :
  l ≡ₚ l' -> string_templates l -> string_templates l'.
Proof. intros Hp Hs fd Hin. apply Hs. by rewrite Hp. Qed.

Lemma format_strings (go : GoRuntime) (laws : GoRuntimeLaws go)
    (b : string) (fds : list Field) :
  string_templates fds ->
  format b fds = Done (sort_Sort fds, b +:+ rendered_body (sort_Sort fds)).
Proof.
  intros Hs. unfold format, formatTo, rendered_body.
  rewrite formatTo_from_strings
    by (eapply string_templates_Permutation; [symmetry; apply sort_Sort_Permutation | done]).
  cbn [obind app].
  destruct (last (templates (sort_Sort fds))) as [f |]; simpl; [done |].
  by rewrite Fprintf_each_concat.
Qed.

(** ** Sorting by [Order] *)

Lemma sort_Sort_StronglySorted (go : GoRuntime) (laws : GoRuntimeLaws go)
    (fds : list Field) :
  StronglySorted Order_le (sort_Sort fds).
Proof.
  apply Less_sorted. intros i j Hij. apply sort_Sort_sorted.
  unfold FieldsSort_Len. by rewrite <- (Permutation_length (sort_Sort_Permutation fds)).
Qed.

Lemma NoDup_Order_inj (fds : list Field) (x y : Field) :
  NoDup (Order <$> fds) -> x ∈ fds -> y ∈ fds -> Order x = Order y -> x = y.
Proof.
  induction fds as [| a fds IH]; intros Hnd Hx Hy Hxy; [by apply elem_of_nil in Hx |].
  rewrite fmap_cons in Hnd. apply NoDup_cons in Hnd as [Ha Hnd].
  apply elem_of_cons in Hx as [-> | Hx]; apply elem_of_cons in Hy as [-> | Hy].
  - done.
  - destruct Ha. rewrite Hxy. by apply list_elem_of_fmap_2.
  - destruct Ha. rewrite <- Hxy. by apply list_elem_of_fmap_2.
  - by apply IH.
Qed.

(** Two ascending arrangements of fields with pairwise distinct [Order] are
    the same. *)
Lemma ascending_unique (l1 l2 : list Field) :
  NoDup (Order <$> l1) -> l1 ≡ₚ l2 ->
  StronglySorted Order_le l1 -> StronglySorted Order_le l2 -> l1 = l2.
Proof.
  intros Hnd Hp H1 H2. apply (StronglySorted_unique_strong Order_le); try done.
  intros x1 x2 Hx1 Hx2 Hle Hge. apply (NoDup_Order_inj l1); try done.
  - by rewrite Hp.
  - unfold Order_le in *. lia.
Qed.

Lemma sort_Sort_determined (go : GoRuntime) (laws : GoRuntimeLaws go)
    (fds fds' : list Field) :
  NoDup (Order <$> fds) -> fds' ≡ₚ fds -> StronglySorted Order_le fds' ->
  sort_Sort fds = fds'.
Proof.
  intros Hnd Hp Hs. symmetry. apply ascending_unique; try done.
  - by rewrite Hp.
  - by rewrite Hp, sort_Sort_Permutation.
  - by apply sort_Sort_StronglySorted.
Qed.

Lemma sort_Sort_ascending_id (go : GoRuntime) (laws : GoRuntimeLaws go)
    (fds : list Field) :
  StronglySorted Order_lt fds -> sort_Sort fds = fds.
Proof.
  intros Hs. apply sort_Sort_determined; [done | by apply Order_lt_NoDup | done |].
  by apply Order_lt_le.
Qed.

Lemma StronglySorted_filter {A} (R : relation A) (P : A -> Prop)
    `{forall x, Decision (P x)} (l : list A) :
  StronglySorted R l -> StronglySorted R (filter P l).
Proof.
  induction 1 as [| x l Hl IH Hx]; [constructor |].
  rewrite filter_cons. destruct (decide (P x)); [| done].
  constructor; [done |]. rewrite Forall_forall in Hx. apply Forall_forall.
  intros y [_ Hy]%list_elem_of_filter. by apply Hx.
Qed.

Lemma NoDup_Stable (l l' : list Field) :
  NoDup (Order <$> l) -> l' ≡ₚ l -> Stable l l'.
Proof.
  intros Hnd Hp o.
  assert (Hfp : filter (fun fd => Order fd = o) l' ≡ₚ filter (fun fd => Order fd = o) l)
    by (by rewrite Hp).
  assert (Hone : forall x y, x ∈ filter (fun fd => Order fd = o) l ->
                             y ∈ filter (fun fd => Order fd = o) l -> x = y).
  { intros x y [Hx Hxl]%list_elem_of_filter [Hy Hyl]%list_elem_of_filter.
    apply (NoDup_Order_inj l); [done.. | congruence]. }
  assert (Hndf : NoDup (filter (fun fd => Order fd = o) l)).
  { apply NoDup_filter. by apply (NoDup_fmap_1 Order). }
  destruct (filter (fun fd => Order fd = o) l) as [| x [| y r]].
  - by apply Permutation_nil_r in Hfp.
  - by apply Permutation_singleton_r in Hfp.
  - apply NoDup_cons in Hndf as [Hx _]. destruct Hx.
    rewrite (Hone x y); [left | left | right; left].
Qed.

Lemma mkFields_Value (index : Z) (v : list any) : Value <$> mkFields index v = v.
Proof.
  unfold mkFields. rewrite fmap_imap. simpl.
  apply list_eq. intros i. rewrite list_lookup_imap. by destruct (v !! i).
Qed.

Lemma non_Format_mkFields (index : Z) (v : list any) :
  non_Format (mkFields index v) = mkFields index v.
Proof.
  unfold non_Format.
  assert (H : Forall (fun fd => Key fd <> "Format") (mkFields index v)).
  { apply Forall_forall. intros fd Hfd. by apply (mkFields_Key_not_Format index v). }
  induction H as [| fd l Hfd Hl IH]; [done |].
  by rewrite filter_cons_True, IH.
Qed.

Lemma templates_mkFields (index : Z) (v : list any) : templates (mkFields index v) = [].
Proof.
  unfold templates.
  assert (H : Forall (fun fd => Key fd <> "Format") (mkFields index v)).
  { apply Forall_forall. intros fd Hfd. by apply (mkFields_Key_not_Format index v). }
  induction H as [| fd l Hfd Hl IH]; [done |].
  cbn [omap list_omap]. by destruct (decide (Key fd = "Format")).
Qed.

Global Instance templates_Permutation : Proper ((≡ₚ) ==> (≡ₚ)) templates.
Proof. intros l l' Hp. unfold templates. by rewrite Hp. Qed.

Global Instance non_Format_Permutation : Proper ((≡ₚ) ==> (≡ₚ)) non_Format.
Proof. intros l l' Hp. unfold non_Format. by rewrite Hp. Qed.

Lemma string_templates_mkFields (index : Z) (v : list any) :
  string_templates (mkFields index v).
Proof. intros fd Hin HK. by destruct (mkFields_Key_not_Format index v fd). Qed.

Lemma string_templates_mkFormatFields (format : string) (v : list any) :
  string_templates (mkFormatFields format v).
Proof.
  intros fd Hin HK. unfold mkFormatFields in Hin. simpl in Hin.
  apply elem_of_cons in Hin as [-> | Hin]; [by eexists |].
  by destruct (mkFields_Key_not_Format 1 v fd).
Qed.

(** The fields of the builders are rendered in the order of emission. *)
Lemma format_mkFields (go : GoRuntime) (laws : GoRuntimeLaws go)
    (b : string) (v : list any) :
  Z.of_nat (length v) <= max_int ->
  sort_Sort (mkFields 0 v) = mkFields 0 v /\
  format b (mkFields 0 v) = Done (mkFields 0 v, Fprintf_each b v).
Proof.
  intros Hlen. unfold max_int in Hlen.
  assert (Hid : sort_Sort (mkFields 0 v) = mkFields 0 v).
  { apply sort_Sort_ascending_id; [done |]. apply mkFields_strictly_ascending; lia. }
  split; [done |].
  rewrite format_strings by (done || apply string_templates_mkFields).
  unfold rendered_body, operands.
  rewrite Hid, templates_mkFields, non_Format_mkFields, mkFields_Value. simpl.
  by rewrite Fprintf_each_concat.
Qed.

Lemma format_mkFormatFields (go : GoRuntime) (laws : GoRuntimeLaws go)
    (b format_ : string) (v : list any) :
  Z.of_nat (length v) <= max_int ->
  format b (mkFormatFields format_ v)
  = Done (sort_Sort (mkFormatFields format_ v), b +:+ fmt_Sprintf format_ v).
Proof.
  intros Hlen. unfold max_int in Hlen.
  rewrite format_strings by (done || apply string_templates_mkFormatFields).
  unfold rendered_body, operands.
  pose proof (sort_Sort_Permutation (mkFormatFields format_ v)) as Hp.
  assert (Ht : templates (sort_Sort (mkFormatFields format_ v)) = [format_]).
  { apply Permutation_singleton_r. rewrite Hp.
    unfold mkFormatFields. cbn [app]. unfold templates at 1. cbn [omap list_omap].
    fold (templates (mkFields 1 v)). by rewrite templates_mkFields. }
  assert (Ho : non_Format (sort_Sort (mkFormatFields format_ v)) = mkFields 1 v).
  { assert (Hs1 : StronglySorted Order_lt (mkFields 1 v))
      by (apply mkFields_strictly_ascending; lia).
    symmetry. apply ascending_unique.
    - by apply Order_lt_NoDup.
    - rewrite Hp. unfold mkFormatFields. cbn [app]. rewrite non_Format_cons.
      cbn [Key]. rewrite decide_True by done. by rewrite non_Format_mkFields.
    - by apply Order_lt_le.
    - apply StronglySorted_filter. by apply sort_Sort_StronglySorted. }
  by rewrite Ht, Ho, mkFields_Value.
Qed.

Lemma three_fields_ascending (k0 k1 k2 : string) :
  StronglySorted Order_lt (three_fields k0 k1 k2).
Proof.
  apply StronglySorted_lookup. intros i j a b Hij Ha Hb.
  destruct i as [| [| [| i]]], j as [| [| [| j]]]; simpl in Ha, Hb;
    try lia; simplify_eq; unfold Order_lt; simpl; lia.
Qed.

Lemma RawFormatter_strings (go : GoRuntime) (laws : GoRuntimeLaws go) (e : EntryView) :
  string_templates (view_fields e) ->
  RawFormatter_Format e
  = Done (mkRendered (sort_Sort (view_fields e))
            (rendered_body (sort_Sort (view_fields e)) +:+ nl) None).
Proof.
  intros Hs. unfold RawFormatter_Format. by rewrite format_strings.
Qed.




(** Insertion sort keeps fields of equal [Order] in their order: whether
    sorting is stable depends on the sort the runtime provides. *)
Lemma sift_filter (o : Z) (x : Field) (rp : list Field) :
  filter (fun fd => Order fd = o) (sift x rp)
  = filter (fun fd => Order fd = o) (x :: rp).
Proof.
  induction rp as [| y r IH]; [done |]. simpl.
  destruct (Z.ltb_spec (Order x) (Order y)) as [Hlt | Hge]; [| done].
  rewrite (filter_cons _ y), IH, !(filter_cons _ x), (filter_cons _ y).
  destruct (decide (Order y = o)), (decide (Order x = o)); try done. lia.
Qed.

Lemma Sort_insertion_Stable (fds : list Field) : Stable fds (Sort_insertion fds).
Proof.
  intros o. rewrite Sort_insertion_isort. unfold isort. rewrite filter_reverse.
  assert (H : forall acc,
             filter (fun fd => Order fd = o) (foldl (fun acc x => sift x acc) acc fds)
             = filter (fun fd => Order fd = o) (reverse fds ++ acc)).
  { induction fds as [| x fds IH]; intros acc; [done |].
    cbn [foldl]. rewrite IH, reverse_cons, <- app_assoc, !filter_app.
    f_equal. rewrite sift_filter. apply (filter_app _ [x] acc). }
  rewrite H, app_nil_r, filter_reverse. apply reverse_involutive.
Qed.

(** C5, as the code has it. [sort.Sort] arranges the fields in ascending
    [Order].  Where no two fields share an [Order] the result is the one
    ascending arrangement (fields of equal [Order] keep their relative order
    for want of any); fields already in strictly ascending [Order], as
    [mkFields] emits them, stay as they are.  The fields of both builders are
    rendered in the order of emission.  The relative order in which fields
    of equal [Order] come out is not determined. *)
Theorem sort_by_Order (go : GoRuntime) (laws : GoRuntimeLaws go) (fds : list Field) :
  sort_Sort fds ≡ₚ fds /\
  StronglySorted Order_le (sort_Sort fds) /\
  (NoDup (Order <$> fds) ->
   Stable fds (sort_Sort fds) /\
   (forall fds', fds' ≡ₚ fds -> StronglySorted Order_le fds' -> sort_Sort fds = fds')) /\
  (StronglySorted Order_lt fds -> sort_Sort fds = fds) /\
  (forall (b format_ : string) (v : list any),
     Z.of_nat (length v) <= max_int ->
     sort_Sort (mkFields 0 v) = mkFields 0 v /\
     format b (mkFields 0 v) = Done (mkFields 0 v, Fprintf_each b v) /\
     format b (mkFormatFields format_ v)
     = Done (sort_Sort (mkFormatFields format_ v), b +:+ fmt_Sprintf format_ v)).
Proof.
  split; [apply sort_Sort_Permutation |].
  split; [by apply sort_Sort_StronglySorted |].
  split.
  { intros Hnd. split.
    - apply NoDup_Stable; [done | apply sort_Sort_Permutation].
    - intros fds' Hp Hs. by apply sort_Sort_determined. }
  split; [by apply sort_Sort_ascending_id |].
  intros b format_ v Hlen.
  destruct (format_mkFields go laws b v Hlen) as [Hid Hf].
  split; [done |]. split; [done |]. by apply format_mkFormatFields.
Qed.

Lemma sort_by_Order_witness :
  @sort_Sort go_insertion (reverse (three_fields "one" "two" "three"))
  = three_fields "one" "two" "three".
Proof.
  apply (sort_by_Order go_insertion go_insertion_laws
           (reverse (three_fields "one" "two" "three"))).
  - apply (bool_decide_unpack _). reflexivity.
  - by rewrite reverse_Permutation.
  - apply Order_lt_le, three_fields_ascending.
Defined.

(** What [sort.Sort] promises does not make it stable: the sort of Go 1.6
    to 1.18 keeps the promise, and its Shell pass moves the first of six
    fields of [Order] 1 behind the other five. *)
Lemma Sort_shell_not_stable :
  GoRuntimeLaws go_shell /\
  ~ Stable seven_fields (@sort_Sort go_shell seven_fields) /\
  Key <$> @sort_Sort go_shell seven_fields = ["g"; "b"; "c"; "d"; "e"; "f"; "a"] /\
  @RawFormatter_Format go_shell (mkView LInfo seven_fields)
  = Done (mkRendered (@sort_Sort go_shell seven_fields) ("gbcdefa" +:+ nl) None) /\
  ~ (forall go : GoRuntime, GoRuntimeLaws go ->
     forall fds : list Field, Stable fds (sort_Sort fds)).
Proof.
  assert (Hns : ~ Stable seven_fields (@sort_Sort go_shell seven_fields)).
  { intros H. specialize (H 1). vm_compute in H. discriminate H. }
  split; [exact go_shell_laws |]. split; [exact Hns |].
  split; [reflexivity |]. split; [reflexivity |].
  intros H. exact (Hns (H go_shell go_shell_laws seven_fields)).
Qed.

(** Up to 12 elements [sort.Sort] of Go 1.19 and later is insertion sort,
    which keeps fields of equal [Order] in their order. *)
Lemma Sort_pdq_short (fds : list Field) :
  (length fds <= 12)%nat ->
  Sort_pdq fds = Sort_insertion fds /\ Stable fds (Sort_pdq fds).
Proof.
  intros Hlen.
  assert (Heq : Sort_pdq fds = Sort_insertion fds).
  { unfold Sort_pdq, Sort_insertion, pdqsort, FieldsSort_Len.
    rewrite Nat.sub_0_r, (proj2 (Nat.leb_le _ _) Hlen).
    destruct (length fds <=? 1)%nat eqn:E; [| done].
    apply Nat.leb_le in E. by destruct fds as [| x [| y fds]]; simpl in *; try lia. }
  split; [done |]. rewrite Heq. apply Sort_insertion_Stable.
Qed.

(** C5, as stated, fails: [sort.Sort] is not stable.  Of thirteen fields,
    twelve of [Order] 1 followed by one of [Order] 0, the sort of Go 1.19 and
    later finds the pivot at index 6, exchanges it with the first field, the
    second field with the last, and puts the pivot back behind the field of
    [Order] 0: the twelve fields of [Order] 1 come out in the order
    g c d e f a h i j k l b, and are rendered in it. *)
Lemma sort_Sort_reorders_ties :
  choosePivot thirteen_fields 0 13 = Done (6%nat, increasingHint) /\
  Key <$> @sort_Sort go_pdq thirteen_fields
  = ["m"; "g"; "c"; "d"; "e"; "f"; "a"; "h"; "i"; "j"; "k"; "l"; "b"] /\
  Order <$> @sort_Sort go_pdq thirteen_fields = 0 :: replicate 12 1 /\
  filter (fun fd => Order fd = 1) (@sort_Sort go_pdq thirteen_fields)
  <> filter (fun fd => Order fd = 1) thirteen_fields /\
  ~ Stable thirteen_fields (@sort_Sort go_pdq thirteen_fields) /\
  @RawFormatter_Format go_pdq (mkView LInfo thirteen_fields)
  = Done (mkRendered (@sort_Sort go_pdq thirteen_fields) ("mgcdefahijklb" +:+ nl) None).
Proof.
  assert (Hf : filter (fun fd => Order fd = 1) (@sort_Sort go_pdq thirteen_fields)
               <> filter (fun fd => Order fd = 1) thirteen_fields).
  { intros H. vm_compute in H. discriminate H. }
  split; [reflexivity |]. split; [reflexivity |]. split; [reflexivity |].
  split; [exact Hf |]. split; [| reflexivity].
  intros H. exact (Hf (H 1)).
Qed.

Lemma format_panics (go : GoRuntime) (laws : GoRuntimeLaws go)
    (fds : list Field) (fd : Field) :
  fd ∈ fds -> Key fd = "Format" -> (forall s, Value fd <> AString s) ->
  exists msg, forall b, format b fds = Panic msg.
Proof.
  intros Hin HK Hv.
  destruct (formatTo_from_panics (sort_Sort fds) false "" [] fd) as [msg Hmsg];
    [by rewrite sort_Sort_Permutation | done | done |].
  exists msg. intros b. unfold format, formatTo. by rewrite Hmsg.
Qed.

(** C10. Rendering is not total over hand-built entries: for every entry
    with a field keyed "Format" whose value is not a string, [Format] of the
    raw and of the text formatter panics (on the type assertion in
    [formatTo]) instead of returning an error; a [log] of such an entry on a
    logger with either formatter does not return to the caller, and nothing
    is written to the sink. *)
Theorem Format_not_string_panics (go : GoRuntime) (laws : GoRuntimeLaws go)
    (e : EntryView) (t : TextFormatter) (fd : Field)
    (Hin : fd ∈ view_fields e) (HK : Key fd = "Format")
    (Hv : forall s, Value fd <> AString s) :
  exists msg,
    RawFormatter_Format e = Panic msg /\
    TextFormatter_Format t e = Panic msg /\
    (forall en : entry,
       view en = e ->
       logger_Formatter (entry_Logger en) = RawFormatter_Format \/
       logger_Formatter (entry_Logger en) = TextFormatter_Format t ->
       (forall a, outcome (log en) <> Done a) /\
       (forall p, EvWrite p ∉ trace (log en)) /\
       (registered (logger_Hooks (entry_Logger en)) PRE (entry_EntryLevel en) = None ->
        logger_Log (entry_Logger en) en = ([EvFormat], Panic msg))).
Proof.
  destruct (format_panics go laws (view_fields e) fd Hin HK Hv) as [msg Hmsg].
  exists msg.
  assert (HR : RawFormatter_Format e = Panic msg)
    by (unfold RawFormatter_Format; by rewrite Hmsg).
  assert (HT : TextFormatter_Format t e = Panic msg)
    by (unfold TextFormatter_Format, TextFormatter_formatFields; by rewrite Hmsg).
  split; [done |]. split; [done |].
  intros en Hview Hfmt.
  assert (HF : logger_Formatter (entry_Logger en) (view en) = Panic msg)
    by (destruct Hfmt as [-> | ->]; by rewrite Hview).
  pose proof (fire_trace PRE (entry_EntryLevel en) en) as Hpre.
  assert (Hlog : log en
                 = bind (fire PRE (entry_EntryLevel en) en)
                        (fun _ => ([EvFormat], Panic msg))).
  { unfold log. rewrite read_cases, HF. done. }
  split; [| split].
  - intros a. rewrite Hlog.
    by destruct (fire PRE (entry_EntryLevel en) en) as [t1 [[] | |]].
  - intros p Hp. rewrite Hlog in Hp.
    assert (Hp' : EvWrite p ∈ trace (fire PRE (entry_EntryLevel en) en)
                  \/ EvWrite p ∈ [EvFormat]).
    { destruct (fire PRE (entry_EntryLevel en) en) as [t1 [[] | m | c]];
        unfold trace in *; simpl in Hp; [by apply elem_of_app in Hp | by left..]. }
    destruct Hp' as [Hp' | Hp'].
    + rewrite Forall_forall in Hpre. by destruct (Hpre _ Hp') as [[i [=]] | [m [=]]].
    + by apply list_elem_of_singleton in Hp'.
  - intros Hreg. unfold logger_Log. rewrite Hlog. unfold fire.
    by rewrite hooks_Fire_registered, Hreg.
Qed.

Lemma Format_not_string_panics_witness :
  exists msg,
    logger_Log (@raw_logger go_insertion LDebug)
      (newEntry (@raw_logger go_insertion LDebug) LInfo
         [mkField 0 "Format" (AInt 42); mkField 1 "Field1" (AString "x")])
    = ([EvFormat], Panic msg).
Proof.
  destruct (Format_not_string_panics go_insertion go_insertion_laws
              (mkView LInfo [mkField 0 "Format" (AInt 42); mkField 1 "Field1" (AString "x")])
              (MakeTextFormatter "TEST") (mkField 0 "Format" (AInt 42)))
    as (msg & _ & _ & H).
  - left.
  - reflexivity.
  - discriminate.
  - exists msg.
    apply (H (newEntry (@raw_logger go_insertion LDebug) LInfo
                [mkField 0 "Format" (AInt 42); mkField 1 "Field1" (AString "x")])).
    + reflexivity.
    + left. reflexivity.
    + reflexivity.
Defined.

(** ** The scenarios of log_test.go, run on the reference runtime *)

(** [New] and [SwapFormatter("raw")] give the logger of the fixtures; a new
    logger renders with the null formatter. *)
Example New_scenario :
  (let! l := @New go_insertion bytes_Buffer LDebug "TEST" in
   Done (logger_SwapFormatter l "raw")) = Done (@raw_logger go_insertion LDebug) /\
  (let! l := @New go_insertion bytes_Buffer LDebug "TEST" in
   Done (logger_Formatter l (mkView LInfo (mkFields 0 [AString "MESSAGE"]))))
  = Done (Done (mkRendered (mkFields 0 [AString "MESSAGE"]) "" None)).
Proof. split; reflexivity. Qed.

(** [TestPrint] and [TestXtr]: each call writes "MESSAGE" and a newline. *)
Example TestPrint_scenario :
  let l := @raw_logger go_insertion LDebug in
  let written := ([EvFormat; EvWrite ("MESSAGE" +:+ nl)], Done tt) in
  logger_Print l [AString "MESSAGE"] = written /\
  logger_Printf l "%s" [AString "MESSAGE"] = written /\
  logger_Println l [AString "MESSAGE"] = written /\
  logger_At l LInfo [AString "MESSAGE"] = written /\
  logger_Atf l LInfo "%s" [AString "MESSAGE"] = written /\
  logger_Log l (newEntry l LInfo (mkFields 0 [AString "MESSAGE"])) = written /\
  logger_At (@raw_logger go_insertion LPanic) LInfo [AString "MESSAGE"] = written.
Proof. repeat split; reflexivity. Qed.

(** [TestFatal] and [TestPanic]: the record is written, then the process
    exits with status 1, or panics. *)
Example TestFatal_scenario :
  logger_Fatal (@raw_logger go_insertion LFatal) [AString "FATAL!"]
  = ([EvFormat; EvWrite ("FATAL!" +:+ nl); EvHook POST LFatal 0], Exit 1) /\
  logger_Panicf (@raw_logger go_insertion LDebug) "%s" [AString "PANIC!"]
  = ([EvFormat; EvWrite ("PANIC!" +:+ nl); EvHook POST LPanic 0], Panic "panic hook") /\
  logger_Fatal (@raw_logger go_insertion LPanic) [AString "FATAL!"] = ret tt.
Proof. repeat split; reflexivity. Qed.

(** * Further properties *)

(** ** Levels and their names *)

Lemma Levels_range (l : Level) : l ∈ Levels <-> 1 <= l <= 6.
Proof.
  unfold Levels, LPanic, LFatal, LError, LWarn, LInfo, LDebug.
  rewrite !elem_of_cons, elem_of_nil. lia.
Qed.

Lemma Level_String_cases (l : Level) :
  ((l ∈ Levels) /\ (Level_String l ∈ level_names)) \/
  ((l ∉ Levels) /\ Level_String l = "unrecognized").
Proof.
  rewrite Levels_range.
  destruct (decide (1 <= l <= 6)) as [Hin | Hout].
  - left. split; [done |].
    assert (Hl : l = 1 \/ l = 2 \/ l = 3 \/ l = 4 \/ l = 5 \/ l = 6) by lia.
    unfold level_names. rewrite !elem_of_cons.
    destruct Hl as [-> | [-> | [-> | [-> | [-> | ->]]]]]; vm_compute; tauto.
  - right. split; [done |].
    unfold Level_String, LPanic, LFatal, LError, LWarn, LInfo, LDebug.
    repeat match goal with
           | |- context [?a =? ?b] => destruct (Z.eqb_spec a b); [lia |]
           end.
    reflexivity.
Qed.

(** X1. The name of a level determines it: [String] gives each of the six
    levels a name of its own, and gives every other integer, [LUnrecognized],
    negative or beyond [LDebug], the name "unrecognized"; parsing the name a
    level prints gives the level back, and [LUnrecognized] for every other
    integer (the lower-casing leaving these lower-case names as they are). *)
Theorem Level_String_StringToLevel (go : GoRuntime)
    (Hlower : forall n, n ∈ "unrecognized" :: level_names -> strings_ToLower n = n)
    (l : Level) :
  (l ∈ Levels <-> 1 <= l <= 6) /\
  (l ∈ Levels <-> Level_String l <> "unrecognized") /\
  (forall l', l ∈ Levels -> Level_String l' = Level_String l -> l' = l) /\
  (l ∈ Levels -> StringToLevel (Level_String l) = l) /\
  (l ∉ Levels -> StringToLevel (Level_String l) = LUnrecognized).
Proof.
  pose proof (Levels_range l) as Hrange.
  assert (Hname : forall k, k ∈ Levels ->
                    stringToLevel !! Level_String k = Some k).
  { intros k Hk. unfold Levels in Hk.
    repeat (apply elem_of_cons in Hk as [-> | Hk]; [reflexivity |]).
    by apply elem_of_nil in Hk. }
  split; [exact Hrange |]. split; [| split; [| split]].
  - destruct (Level_String_cases l) as [[Hin Hn] | [Hout Hn]].
    + split; [| done]. intros _ Heq. rewrite Heq in Hn.
      unfold level_names in Hn. rewrite !elem_of_cons, elem_of_nil in Hn.
      by repeat destruct Hn as [Hn | Hn].
    + split; [done |]. intros H. by destruct H.
  - intros l' Hl Heq.
    destruct (Level_String_cases l') as [[Hin' _] | [_ Hn']].
    + pose proof (Hname l Hl) as H1. pose proof (Hname l' Hin') as H2.
      rewrite Heq in H2. congruence.
    + rewrite Hn' in Heq. pose proof (Hname l Hl) as H1. rewrite <- Heq in H1.
      discriminate H1.
  - intros Hl. unfold StringToLevel. rewrite Hlower.
    + by rewrite (Hname l Hl).
    + right. destruct (Level_String_cases l) as [[_ Hn] | [Hout _]]; done.
  - intros Hl. unfold StringToLevel.
    destruct (Level_String_cases l) as [[Hin _] | [_ Hn]]; [done |].
    rewrite Hn, Hlower by left. reflexivity.
Qed.

Lemma Level_String_StringToLevel_witness :
  @StringToLevel go_insertion (Level_String LWarn) = LWarn /\
  @StringToLevel go_insertion (Level_String 7) = LUnrecognized.
Proof.
  assert (Hlower : forall n, n ∈ "unrecognized" :: level_names ->
                             @strings_ToLower go_insertion n = n).
  { intros n Hn. unfold level_names in Hn.
    repeat (apply elem_of_cons in Hn as [-> | Hn]; [reflexivity |]).
    by apply elem_of_nil in Hn. }
  split.
  - apply (Level_String_StringToLevel go_insertion Hlower LWarn).
    apply Levels_range. unfold LWarn. lia.
  - apply (Level_String_StringToLevel go_insertion Hlower 7).
    rewrite Levels_range. lia.
Defined.

(** ** The sort interface of a field slice *)

(** X2. [FieldsSort.Less] compares the [Order] of two elements and is a
    strict weak order on the indices of the slice, as [sort.Sort] requires:
    irreflexive, asymmetric, transitive, with transitive incomparability; it
    returns for every pair of indices inside the slice and panics for an
    index outside it. *)
Theorem FieldsSort_Less_strict_weak_order (f : list Field) (i j k : nat) :
  ((i < length f)%nat -> (j < length f)%nat ->
   exists a b, f !! i = Some a /\ f !! j = Some b /\
               FieldsSort_Less f i j = Done (Order a <? Order b)) /\
  ((length f <= i)%nat \/ (length f <= j)%nat ->
   FieldsSort_Less f i j = Panic index_panic) /\
  ((i < length f)%nat -> FieldsSort_Less f i i = Done false) /\
  (FieldsSort_Less f i j = Done true -> FieldsSort_Less f j i = Done false) /\
  (FieldsSort_Less f i j = Done true -> FieldsSort_Less f j k = Done true ->
   FieldsSort_Less f i k = Done true) /\
  (FieldsSort_Less f i j = Done false -> FieldsSort_Less f j i = Done false ->
   FieldsSort_Less f j k = Done false -> FieldsSort_Less f k j = Done false ->
   FieldsSort_Less f i k = Done false /\ FieldsSort_Less f k i = Done false).
Proof.
  unfold FieldsSort_Less.
  split; [| split; [| split; [| split; [| split]]]].
  - intros Hi Hj.
    destruct (lookup_lt_is_Some_2 f i Hi) as [a Ha].
    destruct (lookup_lt_is_Some_2 f j Hj) as [b Hb].
    exists a, b. by rewrite Ha, Hb.
  - intros [H | H].
    + by rewrite (lookup_ge_None_2 f i H).
    + rewrite (lookup_ge_None_2 f j H). by destruct (f !! i).
  - intros Hi. destruct (lookup_lt_is_Some_2 f i Hi) as [a Ha].
    rewrite Ha. f_equal. apply Z.ltb_irrefl.
  - destruct (f !! i) as [a |], (f !! j) as [b |]; try done.
    intros [= H]. f_equal. apply Z.ltb_lt in H. apply Z.ltb_ge. lia.
  - destruct (f !! i) as [a |], (f !! j) as [b |], (f !! k) as [c |]; try done.
    intros [= H1] [= H2]. f_equal. apply Z.ltb_lt in H1, H2. apply Z.ltb_lt. lia.
  - destruct (f !! i) as [a |], (f !! j) as [b |], (f !! k) as [c |]; try done.
    intros [= H1] [= H2] [= H3] [= H4]. apply Z.ltb_ge in H1, H2, H3, H4.
    split; f_equal; apply Z.ltb_ge; lia.
Qed.

(** X3. [FieldsSort.Swap] exchanges the two elements and nothing else: for
    indices inside the slice it returns a slice of the same length, a
    permutation of the old one, in which the elements at the two indices have
    changed places and every other index holds what it held; swapping the
    same two indices again restores the slice.  An index outside the slice
    panics. *)
Theorem FieldsSort_Swap_exchanges (f : list Field) (i j : nat) :
  ((i < length f)%nat -> (j < length f)%nat ->
   exists f', FieldsSort_Swap f i j = Done f' /\
              length f' = length f /\ f' ≡ₚ f /\
              f' !! i = f !! j /\ f' !! j = f !! i /\
              (forall k, k <> i -> k <> j -> f' !! k = f !! k) /\
              FieldsSort_Swap f' i j = Done f) /\
  ((length f <= i)%nat \/ (length f <= j)%nat ->
   FieldsSort_Swap f i j = Panic index_panic).
Proof.
  split.
  - intros Hi Hj.
    destruct (lookup_lt_is_Some_2 f i Hi) as [a Ha].
    destruct (lookup_lt_is_Some_2 f j Hj) as [b Hb].
    assert (Hs : FieldsSort_Swap f i j = Done (<[i := b]> (<[j := a]> f)))
      by (unfold FieldsSort_Swap; by rewrite Ha, Hb).
    assert (Hi' : (<[i := b]> (<[j := a]> f)) !! i = Some b)
      by (apply list_lookup_insert_eq; by rewrite length_insert).
    assert (Hj' : (<[i := b]> (<[j := a]> f)) !! j = Some a).
    { destruct (decide (i = j)) as [-> | Hne].
      - rewrite list_lookup_insert_eq by (by rewrite length_insert). congruence.
      - rewrite list_lookup_insert_ne by done. by apply list_lookup_insert_eq. }
    exists (<[i := b]> (<[j := a]> f)).
    split; [done |]. split; [by rewrite !length_insert |].
    split; [by apply (FieldsSort_Swap_Permutation f _ i j) |].
    split; [congruence |]. split; [congruence |]. split.
    + intros k Hki Hkj. by rewrite !list_lookup_insert_ne.
    + unfold FieldsSort_Swap. rewrite Hi', Hj'. f_equal.
      apply list_eq. intros k.
      destruct (decide (k = i)) as [-> | Hki].
      { rewrite list_lookup_insert_eq by (by rewrite !length_insert). done. }
      rewrite list_lookup_insert_ne by done.
      destruct (decide (k = j)) as [-> | Hkj].
      { rewrite list_lookup_insert_eq by (by rewrite !length_insert). done. }
      by rewrite !list_lookup_insert_ne.
  - unfold FieldsSort_Swap. intros [H | H].
    + by rewrite (lookup_ge_None_2 f i H).
    + rewrite (lookup_ge_None_2 f j H). by destruct (f !! i).
Qed.

(** ** What the builders build *)

Lemma itoa_inj (z1 z2 : Z) : itoa z1 = itoa z2 -> z1 = z2.
Proof.
  unfold itoa. intros H.
  assert (Hnz : forall z, Z.to_int z <> Decimal.Pos Decimal.Nil /\
                          Z.to_int z <> Decimal.Neg Decimal.Nil).
  { intros [| p | p]; simpl; split; try discriminate;
      intros [= Hp]; by apply (Unsigned.to_uint_nonnil p). }
  assert (Hi : Some (Z.to_int z1) = Some (Z.to_int z2)).
  { rewrite <- (NilZero.isi (Z.to_int z1)), <- (NilZero.isi (Z.to_int z2)), H;
      [done | apply Hnz..]. }
  injection Hi as Hi. by rewrite <- (DecimalZ.of_to z1), <- (DecimalZ.of_to z2), Hi.
Qed.

(** X4. [mkFields] builds one field per value, in the order of the values:
    the values of the fields are the values passed; the field at position
    [i] has [Order] [i + index] and the key "Field" followed by that number
    in decimal; no key is "Format", and (a Go slice holding at most
    [max_int] values, numbered from an [index] that does not take the numbers
    beyond [max_int]) no two fields have the same key. *)
Theorem mkFields_fields (index : Z) (v : list any)
    (Hindex : 0 <= index)
    (Hlen : index + Z.of_nat (length v) <= max_int) :
  length (mkFields index v) = length v /\
  Value <$> mkFields index v = v /\
  (forall i f, mkFields index v !! i = Some f ->
     Order f = Z.of_nat i + index /\
     Key f = "Field" +:+ itoa (Z.of_nat i + index) /\
     v !! i = Some (Value f)) /\
  (forall f, f ∈ mkFields index v -> Key f <> "Format") /\
  NoDup (Key <$> mkFields index v) /\
  mkFields index [] = [].
Proof.
  unfold max_int in Hlen.
  assert (Hlk : forall i f, mkFields index v !! i = Some f ->
                  Order f = Z.of_nat i + index /\
                  Key f = "Field" +:+ itoa (Z.of_nat i + index) /\
                  v !! i = Some (Value f)).
  { intros i f Hf. pose proof (lookup_lt_Some _ _ _ Hf) as Hi.
    rewrite mkFields_length in Hi.
    apply mkFields_lookup in Hf as (vv & Hv & HO & HK & HV).
    rewrite int_wrap_small in HO by lia. rewrite HK, HO, HV. done. }
  split; [apply mkFields_length |]. split; [apply mkFields_Value |].
  split; [exact Hlk |]. split; [apply mkFields_Key_not_Format |].
  split; [| done].
  apply NoDup_alt. intros i j k Hi Hj.
  rewrite list_lookup_fmap in Hi, Hj.
  destruct (mkFields index v !! i) as [fi |] eqn:Ei; [| done].
  destruct (mkFields index v !! j) as [fj |] eqn:Ej; [| done].
  simpl in Hi, Hj. injection Hi as Hi. injection Hj as Hj.
  destruct (Hlk i fi Ei) as (_ & HKi & _). destruct (Hlk j fj Ej) as (_ & HKj & _).
  rewrite HKi in Hi. rewrite HKj, <- Hi in Hj.
  injection Hj as Hj. apply itoa_inj in Hj. lia.
Qed.

Lemma mkFields_fields_witness :
  Key <$> mkFields 0 [AString "a"; AInt 7; ANil] = ["Field0"; "Field1"; "Field2"] /\
  NoDup (Key <$> mkFields 1 [AString "a"; AInt 7; ANil]).
Proof.
  split; [reflexivity |].
  apply (mkFields_fields 1 [AString "a"; AInt 7; ANil]).
  - lia.
  - unfold max_int. simpl. lia.
Defined.

(** X5. [mkFormatFields] builds the template and the operands of one
    formatted message: one field more than there are values, the first keyed
    "Format" and holding the template as a string, the others the fields of
    [mkFields] from index 1; so exactly one field is keyed "Format", every
    template it holds is a string, the template [formatTo] will find is the
    one passed and the operands are the values passed, in order. *)
Theorem mkFormatFields_fields (format_ : string) (v : list any) :
  length (mkFormatFields format_ v) = S (length v) /\
  head (mkFormatFields format_ v) = Some (mkField 1 "Format" (AString format_)) /\
  tail (mkFormatFields format_ v) = mkFields 1 v /\
  filter (fun fd => Key fd = "Format") (mkFormatFields format_ v)
  = [mkField 1 "Format" (AString format_)] /\
  string_templates (mkFormatFields format_ v) /\
  templates (mkFormatFields format_ v) = [format_] /\
  operands (mkFormatFields format_ v) = v /\
  formatTo (mkFormatFields format_ v) = Done (true, format_, v).
Proof.
  assert (Ht : templates (mkFormatFields format_ v) = [format_]).
  { unfold mkFormatFields. cbn [app]. unfold templates at 1. cbn [omap list_omap].
    fold (templates (mkFields 1 v)). by rewrite templates_mkFields. }
  assert (Ho : operands (mkFormatFields format_ v) = v).
  { unfold operands, mkFormatFields. cbn [app]. rewrite non_Format_cons.
    cbn [Key]. rewrite decide_True by done.
    by rewrite non_Format_mkFields, mkFields_Value. }
  split; [unfold mkFormatFields; simpl; by rewrite mkFields_length |].
  split; [done |]. split; [done |]. split.
  { unfold mkFormatFields. cbn [app]. rewrite filter_cons_True by done. f_equal.
    assert (H : Forall (fun fd => Key fd <> "Format") (mkFields 1 v)).
    { apply Forall_forall. intros fd Hfd. by apply (mkFields_Key_not_Format 1 v). }
    induction H as [| fd l Hfd Hl IH]; [done |]. by rewrite filter_cons_False. }
  split; [apply string_templates_mkFormatFields |].
  split; [exact Ht |]. split; [exact Ho |].
  unfold formatTo.
  rewrite formatTo_from_strings by apply string_templates_mkFormatFields.
  by rewrite Ht, Ho.
Qed.


(** ** The formatter table *)

(** X6. The table of named formatters: [GetFormatter] returns what
    [SetFormatter] stored under the name, the later of two formatters stored
    under one name, and the null formatter for a name nothing is stored
    under; storing under one name does not change what another name gives.
    [SetFormatter] changes the table only: the active formatter stays, even
    when its own name is stored under, and so do sink, level and hooks. *)
Theorem formatter_table (l : logger) (k k' : string) (f f0 : Formatter) :
  logger_GetFormatter (logger_SetFormatter l k f) k = f /\
  logger_GetFormatter (logger_SetFormatter (logger_SetFormatter l k f0) k f) k = f /\
  (k' <> k ->
   logger_GetFormatter (logger_SetFormatter l k f) k' = logger_GetFormatter l k') /\
  (logger_formatters l !! k' = None ->
   logger_GetFormatter l k' = NullFormatter_Format) /\
  (logger_Formatter (logger_SetFormatter l k f) = logger_Formatter l /\
   logger_Writer (logger_SetFormatter l k f) = logger_Writer l /\
   logger_level (logger_SetFormatter l k f) = logger_level l /\
   logger_Hooks (logger_SetFormatter l k f) = logger_Hooks l).
Proof.
  unfold logger_GetFormatter, logger_SetFormatter; simpl.
  split; [by rewrite lookup_insert_eq |].
  split; [by rewrite lookup_insert_eq |].
  split; [intros Hne; by rewrite lookup_insert_ne |].
  split; [by intros -> | done].
Qed.

(** X7. [SwapFormatter] makes the formatter stored under the name the active
    one and changes nothing else; after [SetFormatter(k, f)],
    [SwapFormatter(k)] activates [f]; a name nothing is stored under
    activates the null formatter.  A formatter replaced in the table stays
    active until the next [SwapFormatter]. *)
Theorem SwapFormatter_activates (l : logger) (k : string) (f : Formatter) :
  logger_Formatter (logger_SwapFormatter l k) = logger_GetFormatter l k /\
  logger_Formatter (logger_SwapFormatter (logger_SetFormatter l k f) k) = f /\
  (logger_formatters l !! k = None ->
   logger_Formatter (logger_SwapFormatter l k) = NullFormatter_Format) /\
  logger_Formatter (logger_SetFormatter (logger_SwapFormatter l k) k f)
  = logger_GetFormatter l k /\
  (logger_formatters (logger_SwapFormatter l k) = logger_formatters l /\
   logger_Writer (logger_SwapFormatter l k) = logger_Writer l /\
   logger_level (logger_SwapFormatter l k) = logger_level l /\
   logger_Hooks (logger_SwapFormatter l k) = logger_Hooks l).
Proof.
  unfold logger_SwapFormatter, logger_GetFormatter, logger_SetFormatter; simpl.
  split; [done |]. split; [by rewrite lookup_insert_eq |].
  split; [by intros -> | done].
Qed.

(** ** More about the pipeline *)

Lemma copy_trace_cases (e : entry) (r : string) :
  (r = "" /\ copy e r = ret tt) \/
  (r <> "" /\ exists d, trace (copy e r) = EvWrite r :: d /\
                         (d = [] \/ exists msg, d = [EvStdout msg])).
Proof.
  destruct (decide (r = "")) as [-> | Hr]; [left | right]; [done |].
  split; [done |]. by apply copy_nonempty.
Qed.

(** The trace of [log], part by part: the firing before rendering; then, if
    that returned, the call of the formatter with the diagnostic for its
    error and the copy; then, if the copy returned, the firing after. *)
Lemma log_parts (e : entry) :
  exists mid t4,
    trace (log e) = trace (fire PRE (entry_EntryLevel e) e) ++ mid ++ t4 /\
    ((mid = [] /\ t4 = []) \/
     (mid = [EvFormat] /\ t4 = [] /\
      forall r, logger_Formatter (entry_Logger e) (view e) <> Done r) \/
     (exists r,
        logger_Formatter (entry_Logger e) (view e) = Done r /\
        mid = EvFormat :: read_diag (rendered_err r)
                ++ trace (copy (entry_with_fields e (rendered_fields r))
                            (rendered_bytes r)) /\
        (t4 = [] \/
         t4 = trace (fire POST (entry_EntryLevel e)
                       (entry_with_fields e (rendered_fields r)))))).
Proof.
  unfold log.
  destruct (fire PRE (entry_EntryLevel e) e) as [t1 [[] | msg | code]];
    [| exists [], []; split; [by rewrite !app_nil_r | by left] ..].
  rewrite bind_Done, read_cases.
  destruct (logger_Formatter _ _) as [r | msg | code] eqn:EF;
    [| exists [EvFormat], []; split; [done | right; left; by repeat split] ..].
  rewrite bind_Done. cbn beta iota. cbn [trace fst].
  set (e' := entry_with_fields e (rendered_fields r)).
  change (entry_EntryLevel e') with (entry_EntryLevel e).
  destruct (copy e' (rendered_bytes r)) as [t3 [[] | msg | code]] eqn:EC.
  - rewrite bind_Done. cbn [trace fst].
    exists (EvFormat :: read_diag (rendered_err r) ++ t3),
      (trace (fire POST (entry_EntryLevel e) e')).
    split; [f_equal; simpl; f_equal; by rewrite app_assoc |].
    right; right. exists r. split; [done |].
    split; [subst e'; by rewrite EC | by right].
  - exists (EvFormat :: read_diag (rendered_err r) ++ t3), [].
    split; [by rewrite app_nil_r |].
    right; right. exists r. split; [done |].
    split; [subst e'; by rewrite EC | by left].
  - exists (EvFormat :: read_diag (rendered_err r) ++ t3), [].
    split; [by rewrite app_nil_r |].
    right; right. exists r. split; [done |].
    split; [subst e'; by rewrite EC | by left].
Qed.

Lemma fire_no_write (at_ : Timing) (lv : Level) (e : entry) (p : string) :
  EvWrite p ∉ trace (fire at_ lv e).
Proof.
  intros Hin. pose proof (fire_trace at_ lv e) as H.
  rewrite Forall_forall in H. specialize (H _ Hin). unfold fire_event in H.
  by destruct H as [[i [=]] | [m [=]]].
Qed.

(** What the sink is handed is what the formatter returned, and is not
    empty. *)
Lemma log_write_rendered (e : entry) (p : string) :
  EvWrite p ∈ trace (log e) ->
  p <> "" /\
  exists r, logger_Formatter (entry_Logger e) (view e) = Done r /\ rendered_bytes r = p.
Proof.
  destruct (log_parts e) as (mid & t4 & Ht & Hcases). rewrite Ht, !elem_of_app.
  intros [Hp | [Hp | Hp]].
  - by apply fire_no_write in Hp.
  - destruct Hcases as [[-> ->] | [(-> & -> & HF) | (r & HF & -> & H4)]].
    + by apply elem_of_nil in Hp.
    + by apply list_elem_of_singleton in Hp.
    + rewrite elem_of_cons, elem_of_app in Hp. destruct Hp as [[=] | [Hp | Hp]].
      * destruct (rendered_err r); simpl in Hp;
          [by apply list_elem_of_singleton in Hp | by apply elem_of_nil in Hp].
      * destruct (copy_trace_cases (entry_with_fields e (rendered_fields r))
                    (rendered_bytes r)) as [[Hb Hc] | (Hb & d & Hc & Hd)];
          rewrite Hc in Hp.
        -- by apply elem_of_nil in Hp.
        -- apply elem_of_cons in Hp as [[= ->] | Hp]; [split; [done | by exists r] |].
           destruct Hd as [-> | [msg ->]];
             [by apply elem_of_nil in Hp | by apply list_elem_of_singleton in Hp].
  - destruct Hcases as [[-> ->] | [(-> & -> & HF) | (r & HF & -> & [-> | ->])]];
      try by apply elem_of_nil in Hp.
    by apply fire_no_write in Hp.
Qed.

Lemma fire_trace_filter (P : Event -> bool) (at_ : Timing) (lv : Level) (e : entry) :
  (forall t l i, P (EvHook t l i) = false) -> (forall msg, P (EvStdout msg) = false) ->
  filter (fun ev => P ev = true) (trace (fire at_ lv e)) = [].
Proof.
  intros Hh Hs. pose proof (fire_trace at_ lv e) as H.
  induction H as [| ev t Hev Ht IH]; [done |].
  rewrite filter_cons_False; [done |].
  destruct Hev as [[i ->] | [msg ->]]; by rewrite ?Hh, ?Hs.
Qed.

Lemma read_diag_filter (P : Event -> bool) (err : option error) :
  (forall msg, P (EvStdout msg) = false) ->
  filter (fun ev => P ev = true) (read_diag err) = [].
Proof.
  intros Hs. destruct err as [x |]; [| done]. simpl.
  rewrite filter_cons_False; [done | by rewrite Hs].
Qed.

(** Of the events that are neither the invocation of a hook nor a
    diagnostic, a kind that does not hold both the call of the formatter
    and the writes occurs at most once in the trace of [log]. *)
Lemma log_filter_once (P : Event -> bool) (e : entry) :
  (forall t l i, P (EvHook t l i) = false) -> (forall msg, P (EvStdout msg) = false) ->
  (P EvFormat = true -> forall p, P (EvWrite p) = false) ->
  (length (filter (fun ev => P ev = true) (trace (log e))) <= 1)%nat.
Proof.
  intros Hh Hs Hfw.
  destruct (log_parts e) as (mid & t4 & Ht & Hcases).
  rewrite Ht, !filter_app, !length_app, fire_trace_filter by done. cbn [length].
  destruct Hcases as [[-> ->] | [(-> & -> & HF) | (r & HF & -> & H4)]].
  - simpl. lia.
  - rewrite filter_nil. cbn [length].
    destruct (P EvFormat) eqn:EF;
      [rewrite filter_cons_True by done | rewrite filter_cons_False by (by rewrite EF)];
      simpl; lia.
  - assert (filter (fun ev => P ev = true) t4 = []) as ->
      by (destruct H4 as [-> | ->]; [done | by apply fire_trace_filter]).
    assert (Hcopy : (length (filter (fun ev => P ev = true)
                               (trace (copy (entry_with_fields e (rendered_fields r))
                                         (rendered_bytes r))))
                     <= if P EvFormat then 0 else 1)%nat).
    { destruct (copy_trace_cases (entry_with_fields e (rendered_fields r))
                  (rendered_bytes r)) as [[Hb Hc] | (Hb & d & Hc & Hd)]; rewrite Hc.
      - simpl. destruct (P EvFormat); lia.
      - assert (filter (fun ev => P ev = true) d = []) as Hd'.
        { destruct Hd as [-> | [msg ->]]; [done |].
          rewrite filter_cons_False; [done | by rewrite Hs]. }
        destruct (P EvFormat) eqn:EF.
        + rewrite filter_cons_False by (by rewrite Hfw). rewrite Hd'. simpl. lia.
        + destruct (P (EvWrite (rendered_bytes r))) eqn:EW;
            [rewrite filter_cons_True by done | rewrite filter_cons_False by (by rewrite EW)];
            rewrite Hd'; simpl; lia. }
    destruct (P EvFormat) eqn:EF;
      [rewrite filter_cons_True by done | rewrite filter_cons_False by (by rewrite EF)];
      rewrite filter_app, read_diag_filter by done; cbn [app length]; lia.
Qed.

(** X8. One call of [log] calls the formatter at most once and the sink at
    most once: nothing is rendered or written a second time.  What the sink
    receives is never empty and is exactly the bytes the formatter
    returned. *)
Theorem log_renders_and_writes_once (e : entry) :
  (length (filter (fun ev => is_format ev = true) (trace (log e))) <= 1)%nat /\
  (length (filter (fun ev => is_write ev = true) (trace (log e))) <= 1)%nat /\
  (forall p, EvWrite p ∈ trace (log e) ->
     p <> "" /\
     exists r, logger_Formatter (entry_Logger e) (view e) = Done r /\
               rendered_bytes r = p).
Proof.
  split; [by apply log_filter_once |].
  split; [by apply log_filter_once |].
  intros p. apply log_write_rendered.
Qed.


(** ** The registry *)

Lemma builtin_two_timings : two_timings builtin_hooks.
Proof.
  intros t. unfold builtin_hooks; simpl. split.
  - intros [m Hm].
    destruct (decide (t = POST)) as [-> | H1]; [by right |].
    destruct (decide (t = PRE)) as [-> | H0]; [by left |].
    by rewrite !lookup_insert_ne in Hm.
  - intros [-> | ->]; by eexists.
Qed.

Lemma hooks_AddHook_two_timings (h h' : hooks) (t : Timing) (l : Level) (hk : list Hook) :
  two_timings h -> hooks_AddHook h t l hk = Done h' -> two_timings h'.
Proof.
  unfold hooks_AddHook. intros Hh. destruct (has h !! t) as [m |] eqn:E; [| done].
  intros [= <-] t'. simpl. rewrite <- (Hh t').
  destruct (decide (t' = t)) as [-> | Hne].
  - rewrite lookup_insert_eq, E. split; by eexists.
  - by rewrite lookup_insert_ne.
Qed.

Lemma hooks_AddHook_timing (h : hooks) (t : Timing) (l : Level) (hk : list Hook) :
  two_timings h ->
  (t = PRE \/ t = POST -> exists h', hooks_AddHook h t l hk = Done h') /\
  (~ (t = PRE \/ t = POST) ->
   hooks_AddHook h t l hk = Panic "assignment to entry in nil map").
Proof.
  intros Hh. unfold hooks_AddHook. specialize (Hh t).
  destruct (has h !! t) as [m |].
  - split; [by eexists |]. intros Hn. destruct Hn. apply Hh. by eexists.
  - split; [| done]. intros Ht. apply Hh in Ht as [m Hm]. done.
Qed.

Lemma added_cons (t0 : Timing) (l0 : Level) (hk : list Hook)
    (adds : list (Timing * Level * list Hook)) (t : Timing) (l : Level) :
  added ((t0, l0, hk) :: adds) t l
  = (if decide ((t0, l0) = (t, l)) then hk else []) ++ added adds t l.
Proof.
  unfold added. cbn [omap list_omap fst snd].
  by destruct (decide ((t0, l0) = (t, l))).
Qed.

Lemma hooks_AddHooks_registered (adds : list (Timing * Level * list Hook)) (h h' : hooks) :
  hooks_AddHooks h adds = Done h' ->
  forall t l,
    default [] (registered h' t l) = default [] (registered h t l) ++ added adds t l.
Proof.
  revert h. induction adds as [| [[t0 l0] hk] adds IH]; intros h H t l.
  - injection H as <-. by rewrite app_nil_r.
  - cbn [hooks_AddHooks] in H.
    destruct (hooks_AddHook h t0 l0 hk) as [h1 | |] eqn:E; [| done..].
    cbn [obind] in H. rewrite (IH _ H), added_cons.
    apply hooks_AddHook_registered in E as [E1 E2].
    destruct (decide ((t0, l0) = (t, l))) as [[= -> ->] | Hne].
    + rewrite E1. simpl. by rewrite app_assoc.
    + rewrite E2 by done. done.
Qed.

Lemma hooks_AddHooks_two_timings (adds : list (Timing * Level * list Hook)) (h h' : hooks) :
  two_timings h -> hooks_AddHooks h adds = Done h' -> two_timings h'.
Proof.
  revert h. induction adds as [| [[t0 l0] hk] adds IH]; intros h Hh H.
  - by injection H as <-.
  - cbn [hooks_AddHooks] in H.
    destruct (hooks_AddHook h t0 l0 hk) as [h1 | |] eqn:E; [| done..].
    cbn [obind] in H. eapply IH; [| done]. by eapply hooks_AddHook_two_timings.
Qed.

Lemma hooks_AddHooks_total (adds : list (Timing * Level * list Hook)) (h : hooks) :
  two_timings h ->
  (Forall (fun a => a.1.1 = PRE \/ a.1.1 = POST) adds ->
   exists h', hooks_AddHooks h adds = Done h') /\
  (~ Forall (fun a => a.1.1 = PRE \/ a.1.1 = POST) adds ->
   hooks_AddHooks h adds = Panic "assignment to entry in nil map").
Proof.
  revert h. induction adds as [| [[t0 l0] hk] adds IH]; intros h Hh.
  - split; [by eexists |]. intros Hn. destruct Hn. constructor.
  - cbn [hooks_AddHooks].
    destruct (hooks_AddHook_timing h t0 l0 hk Hh) as [Hok Hbad].
    destruct (decide (t0 = PRE \/ t0 = POST)) as [Ht | Ht].
    + destruct (Hok Ht) as [h1 E]. rewrite E. cbn [obind].
      destruct (IH h1 (hooks_AddHook_two_timings _ _ _ _ _ Hh E)) as [IH1 IH2].
      split.
      * intros Hall. apply IH1. by apply Forall_cons in Hall as [_ ?].
      * intros Hn. apply IH2. intros Hall. apply Hn. by apply Forall_cons_2.
    + rewrite (Hbad Ht). split; [| done].
      intros Hall. by apply Forall_cons in Hall as [? _].
Qed.

(** X9. Registrations on the registry of a new logger.  A sequence of
    [AddHook] calls goes through when every timing is [PRE] or [POST], and
    then the hooks of a pair are those the registry was made with followed
    by the hooks registered for the pair, in the order of the calls; a call
    with any other timing panics, writing to a nil map.  Firing with such a
    timing does nothing and returns nil. *)
Theorem AddHook_registry (adds : list (Timing * Level * list Hook)) :
  (Forall (fun a => a.1.1 = PRE \/ a.1.1 = POST) adds ->
   exists h, hooks_AddHooks builtin_hooks adds = Done h /\
             forall t l, default [] (registered h t l)
                         = default [] (registered builtin_hooks t l) ++ added adds t l) /\
  (~ Forall (fun a => a.1.1 = PRE \/ a.1.1 = POST) adds ->
   hooks_AddHooks builtin_hooks adds = Panic "assignment to entry in nil map") /\
  (forall h, hooks_AddHooks builtin_hooks adds = Done h ->
     forall t lv e, t <> PRE -> t <> POST -> hooks_Fire h t lv e = ret None).
Proof.
  destruct (hooks_AddHooks_total adds builtin_hooks builtin_two_timings) as [Hok Hbad].
  split.
  { intros Hall. destruct (Hok Hall) as [h Hh]. exists h. split; [done |].
    by apply hooks_AddHooks_registered. }
  split; [done |].
  intros h Hh t lv e H0 H1.
  pose proof (hooks_AddHooks_two_timings _ _ _ builtin_two_timings Hh t) as Ht.
  unfold hooks_Fire. destruct (has h !! t) as [m |]; [| done].
  destruct (proj1 Ht) as [-> | ->]; by eauto.
Qed.

(** ** The built-in hooks *)

Lemma log_rendered (e : entry) (r : Rendered) :
  logger_Formatter (entry_Logger e) (view e) = Done r ->
  let e' := entry_with_fields e (rendered_fields r) in
  log e = (fire PRE (entry_EntryLevel e) e >>
           ((EvFormat :: read_diag (rendered_err r), Done tt) : M unit) >>
           copy e' (rendered_bytes r) >>
           fire POST (entry_EntryLevel e) e').
Proof.
  intros HF. cbv zeta. unfold log. rewrite read_cases, HF.
  destruct (fire PRE (entry_EntryLevel e) e) as [t [[] | |]]; [| done..].
  by rewrite !bind_Done.
Qed.

Lemma Fire_range_head_aborts (at_ : Timing) (lv : Level) (e : EntryView)
    (hk : Hook) (l : list Hook) (i : nat) :
  (forall msg, hk e = Panic msg ->
     Fire_range at_ lv i (hk :: l) e = ([EvHook at_ lv i], Panic msg)) /\
  (forall code, hk e = Exit code ->
     Fire_range at_ lv i (hk :: l) e = ([EvHook at_ lv i], Exit code)).
Proof.
  split; intros x Hx; cbn [Fire_range]; rewrite bind_assoc, bind_emit; unfold lift;
    by rewrite Hx.
Qed.

Lemma builtin_registered (adds : list (Timing * Level * list Hook)) (h : hooks) :
  hooks_AddHooks builtin_hooks adds = Done h ->
  registered h POST LFatal = Some (exitHook :: added adds POST LFatal) /\
  registered h POST LPanic = Some (panicHook :: added adds POST LPanic).
Proof.
  intros Hh. pose proof (hooks_AddHooks_registered _ _ _ Hh) as Hr.
  split.
  - specialize (Hr POST LFatal). destruct (registered h POST LFatal); by simplify_eq/=.
  - specialize (Hr POST LPanic). destruct (registered h POST LPanic); by simplify_eq/=.
Qed.

(** X10. The built-in hooks come first.  On the registry of a new logger,
    whatever has been registered since, the list for [(POST, LFatal)] begins
    with the exit hook and the list for [(POST, LPanic)] with the panic hook;
    so firing [(POST, LFatal)] invokes the exit hook and nothing after it,
    and the process exits with status 1, and firing [(POST, LPanic)] invokes
    the panic hook and panics with "panic hook".  A hook added for one of
    these two pairs is never invoked by [Fire], nor by [fire]. *)
Theorem builtin_hooks_first (adds : list (Timing * Level * list Hook)) (h : hooks)
    (Hh : hooks_AddHooks builtin_hooks adds = Done h) :
  registered h POST LFatal = Some (exitHook :: added adds POST LFatal) /\
  registered h POST LPanic = Some (panicHook :: added adds POST LPanic) /\
  (forall e, hooks_Fire h POST LFatal e = ([EvHook POST LFatal 0%nat], Exit 1)) /\
  (forall e, hooks_Fire h POST LPanic e = ([EvHook POST LPanic 0%nat], Panic "panic hook")) /\
  (forall en : entry,
     logger_Hooks (entry_Logger en) = h ->
     fire POST LFatal en = ([EvHook POST LFatal 0%nat], Exit 1) /\
     fire POST LPanic en = ([EvHook POST LPanic 0%nat], Panic "panic hook")).
Proof.
  destruct (builtin_registered adds h Hh) as [HF HP].
  assert (H1 : forall e, hooks_Fire h POST LFatal e = ([EvHook POST LFatal 0%nat], Exit 1)).
  { intros e. rewrite hooks_Fire_registered, HF.
    by apply (Fire_range_head_aborts POST LFatal e exitHook). }
  assert (H2 : forall e,
             hooks_Fire h POST LPanic e = ([EvHook POST LPanic 0%nat], Panic "panic hook")).
  { intros e. rewrite hooks_Fire_registered, HP.
    by apply (Fire_range_head_aborts POST LPanic e panicHook). }
  split; [exact HF |]. split; [exact HP |]. split; [exact H1 |]. split; [exact H2 |].
  intros en Hen. unfold fire. rewrite Hen, H1, H2. by split.
Qed.

Lemma builtin_hooks_first_witness :
  hooks_Fire (mkHooks (<[POST := <[LFatal := [exitHook; testHook]]>
                                   (<[LPanic := [panicHook]]> (<[LFatal := [exitHook]]> ∅))]>
                         (has builtin_hooks)))
    POST LFatal (mkView LFatal [])
  = ([EvHook POST LFatal 0%nat], Exit 1).
Proof.
  refine (proj1 (proj2 (proj2 (builtin_hooks_first [(POST, LFatal, [testHook])] _ _)))
            (mkView LFatal [])).
  reflexivity.
Defined.

(** ** Hooks that fail, panic or exit *)

Lemma elem_of_EvHook_seq (at_ : Timing) (lv : Level) (i k : nat) :
  EvHook at_ lv i ∈ (EvHook at_ lv <$> seq 0 k) <-> (i < k)%nat.
Proof.
  rewrite list_elem_of_fmap. split.
  - intros (j & [= ->] & Hj). apply elem_of_seq in Hj. lia.
  - intros Hi. exists i. split; [done |]. apply elem_of_seq. lia.
Qed.

Lemma trace_bind_prefix {A B} (m : M A) (k : A -> M B) :
  exists t', trace (bind m k) = trace m ++ t'.
Proof.
  destruct m as [t [a | msg | code]]; simpl.
  - destruct (k a) as [t' o]. by exists t'.
  - exists []. by rewrite app_nil_r.
  - exists []. by rewrite app_nil_r.
Qed.

(** When the firing before it returns, the formatter is called. *)
Lemma log_renders_after_pre (e : entry) :
  outcome (fire PRE (entry_EntryLevel e) e) = Done tt -> EvFormat ∈ trace (log e).
Proof.
  unfold log. destruct (fire PRE (entry_EntryLevel e) e) as [t1 [[] | |]]; [| done..].
  intros _. rewrite bind_Done.
  destruct (trace_bind_prefix (read e)
              (fun '(e0, reader) => copy e0 reader >> fire POST (entry_EntryLevel e0) e0))
    as [t' Ht].
  destruct (bind (read e) _) as [t o]. simpl in Ht. subst t. cbn [trace fst].
  rewrite read_cases, !elem_of_app.
  right; left. destruct (logger_Formatter _ _); simpl; set_solver.
Qed.

(** X11. A hook that returns an error stops the firing, not the call.  When
    the hooks before it return nil, [fire] invokes the hooks up to and
    including the failing one, prints "log: Failed to fire hook -- " and the
    error on standard output, and returns: the hooks after the failing one
    are not invoked.  If this happens before rendering, the record is
    rendered all the same. *)
Theorem fire_reports_hook_error (at_ : Timing) (lv : Level) (e : entry)
    (l1 : list Hook) (hk : Hook) (l2 : list Hook) (err : error)
    (Hreg : registered (logger_Hooks (entry_Logger e)) at_ lv = Some (l1 ++ hk :: l2))
    (Hl1 : forall h', h' ∈ l1 -> h' (view e) = Done None)
    (Hhk : hk (view e) = Done (Some err)) :
  fire at_ lv e
  = ((EvHook at_ lv <$> seq 0 (S (length l1)))
       ++ [EvStdout ("log: Failed to fire hook -- " +:+ err +:+ nl)], Done tt) /\
  (forall i, EvHook at_ lv i ∈ trace (fire at_ lv e) <-> (i <= length l1)%nat) /\
  (at_ = PRE -> lv = entry_EntryLevel e -> EvFormat ∈ trace (log e)).
Proof.
  assert (Hfire : fire at_ lv e
    = ((EvHook at_ lv <$> seq 0 (S (length l1)))
         ++ [EvStdout ("log: Failed to fire hook -- " +:+ err +:+ nl)], Done tt)).
  { unfold fire. rewrite hooks_Fire_registered, Hreg.
    by rewrite (Fire_range_first_error at_ lv (view e) l1 hk l2 err 0 Hl1 Hhk). }
  split; [exact Hfire |]. split.
  - intros i. rewrite Hfire. cbn [trace fst]. rewrite elem_of_app, elem_of_EvHook_seq.
    split; [intros [Hi | Hi]; [lia | by apply list_elem_of_singleton in Hi] |].
    intros Hi. left. lia.
  - intros Hat Hlv. subst at_ lv. apply log_renders_after_pre. by rewrite Hfire.
Qed.

Lemma fire_reports_hook_error_witness :
  fire PRE LInfo (newEntry (hooked_logger failing_Hook) LInfo [])
  = ([EvHook PRE LInfo 0%nat; EvHook PRE LInfo 1%nat;
      EvStdout ("log: Failed to fire hook -- bad" +:+ nl)], Done tt).
Proof.
  refine (proj1 (fire_reports_hook_error PRE LInfo
                   (newEntry (hooked_logger failing_Hook) LInfo [])
                   [testHook] failing_Hook [testHook] "bad" _ _ _));
    [reflexivity | | reflexivity].
  intros h' Hin. apply list_elem_of_singleton in Hin. by subst h'.
Defined.

Lemma Fire_range_first_abort (at_ : Timing) (lv : Level) (e : EntryView)
    (l1 : list Hook) (hk : Hook) (l2 : list Hook) (i : nat) :
  (forall h', h' ∈ l1 -> h' e = Done None) ->
  (forall msg, hk e = Panic msg ->
     Fire_range at_ lv i (l1 ++ hk :: l2) e
     = (EvHook at_ lv <$> seq i (S (length l1)), Panic msg)) /\
  (forall code, hk e = Exit code ->
     Fire_range at_ lv i (l1 ++ hk :: l2) e
     = (EvHook at_ lv <$> seq i (S (length l1)), Exit code)).
Proof.
  revert i. induction l1 as [| h1 l1 IH]; intros i H.
  - apply Fire_range_head_aborts.
  - destruct (IH (S i)) as [IH1 IH2]; [intros; apply H; by right |].
    split; intros x Hx; cbn [app Fire_range]; rewrite bind_assoc, bind_emit;
      unfold lift; rewrite (H h1) by left; rewrite bind_Done; cbn [app];
      rewrite ?(IH1 _ Hx), ?(IH2 _ Hx); done.
Qed.

(** X12. A hook that panics or exits before rendering ends the call there.
    When the hooks registered before it for [(PRE, level)] return nil, [log]
    invokes the hooks up to and including that one and nothing else happens:
    the formatter is not called, nothing is written, no hook fires after. *)
Theorem pre_hook_abort_stops_log (e : entry) (l1 : list Hook) (hk : Hook) (l2 : list Hook)
    (Hreg : registered (logger_Hooks (entry_Logger e)) PRE (entry_EntryLevel e)
            = Some (l1 ++ hk :: l2))
    (Hl1 : forall h', h' ∈ l1 -> h' (view e) = Done None) :
  let invoked := EvHook PRE (entry_EntryLevel e) <$> seq 0 (S (length l1)) in
  (forall msg, hk (view e) = Panic msg -> log e = (invoked, Panic msg)) /\
  (forall code, hk (view e) = Exit code -> log e = (invoked, Exit code)) /\
  ((forall x, hk (view e) <> Done x) ->
   trace (log e) = invoked /\
   (EvFormat ∉ trace (log e)) /\
   (forall p, EvWrite p ∉ trace (log e)) /\
   (forall lv i, EvHook POST lv i ∉ trace (log e))).
Proof.
  cbv zeta.
  destruct (Fire_range_first_abort PRE (entry_EntryLevel e) (view e) l1 hk l2 0 Hl1)
    as [HP HE].
  assert (H1 : forall msg, hk (view e) = Panic msg ->
                 log e = (EvHook PRE (entry_EntryLevel e) <$> seq 0 (S (length l1)),
                          Panic msg)).
  { intros msg Hm. unfold log, fire. by rewrite hooks_Fire_registered, Hreg, (HP _ Hm). }
  assert (H2 : forall code, hk (view e) = Exit code ->
                 log e = (EvHook PRE (entry_EntryLevel e) <$> seq 0 (S (length l1)),
                          Exit code)).
  { intros code Hm. unfold log, fire. by rewrite hooks_Fire_registered, Hreg, (HE _ Hm). }
  split; [exact H1 |]. split; [exact H2 |].
  intros Hnd.
  assert (Ht : trace (log e) = EvHook PRE (entry_EntryLevel e) <$> seq 0 (S (length l1))).
  { destruct (hk (view e)) as [x | msg | code] eqn:E.
    - by destruct (Hnd x).
    - by rewrite (H1 msg).
    - by rewrite (H2 code). }
  split; [exact Ht |]. rewrite Ht.
  repeat split; intros; rewrite list_elem_of_fmap; by intros (j & [=] & _).
Qed.

Lemma pre_hook_abort_stops_log_witness :
  log (newEntry (hooked_logger panicHook) LInfo [])
  = ([EvHook PRE LInfo 0%nat; EvHook PRE LInfo 1%nat], Panic "panic hook").
Proof.
  refine (proj1 (pre_hook_abort_stops_log
                   (newEntry (hooked_logger panicHook) LInfo [])
                   [testHook] panicHook [testHook] _ _) "panic hook" _);
    [reflexivity | | reflexivity].
  intros h' Hin. apply list_elem_of_singleton in Hin. by subst h'.
Defined.

(** ** Writing *)

Lemma length_pos (r : string) : r <> "" -> 0 < Z.of_nat (String.length r).
Proof. destruct r; [done | simpl; lia]. Qed.

(** X13. What a call of [Write] on the sink leads to.  The bytes of a
    record are handed to the sink in one [Write].  If it reports more bytes
    than it was given, the call panics.  Otherwise [copy] returns: after an
    error of the sink it prints "log: Failed to write -- " and the error on
    standard output; after a count short of the bytes given, with no error,
    it prints the same with "short write"; after a full write it prints
    nothing.  The caller gets no error, and in a call of [log] the hooks
    registered for after the write fire in each of these cases. *)
Theorem copy_write_outcomes (e : entry) (r : string) (m : Z) (werr : option error)
    (Hr : r <> "") (Hw : logger_Writer (entry_Logger e) r = (m, werr)) :
  let n := Z.of_nat (String.length r) in
  let diag := fun x => EvStdout ("log: Failed to write -- " +:+ x +:+ nl) in
  (n < m ->
   copy e r = ([EvWrite r], Panic "bytes.Buffer.WriteTo: invalid Write count")) /\
  (m <= n -> forall x, werr = Some x -> copy e r = ([EvWrite r; diag x], Done tt)) /\
  (m < n -> werr = None -> copy e r = ([EvWrite r; diag "short write"], Done tt)) /\
  (m = n -> werr = None -> copy e r = ([EvWrite r], Done tt)) /\
  (m <= n ->
   forall (e0 : entry) (rd : Rendered),
     logger_Formatter (entry_Logger e0) (view e0) = Done rd ->
     rendered_bytes rd = r ->
     e = entry_with_fields e0 (rendered_fields rd) ->
     exists d,
       log e0 = (fire PRE (entry_EntryLevel e0) e0 >>
                 ((EvFormat :: read_diag (rendered_err rd) ++ EvWrite r :: d, Done tt)
                  : M unit) >>
                 fire POST (entry_EntryLevel e0) e)).
Proof.
  cbv zeta. pose proof (length_pos r Hr) as Hpos.
  assert (Hcopy : copy e r
    = (let* err := (emit (EvWrite r) >>
                    if Z.of_nat (String.length r) <? m
                    then lift (Panic "bytes.Buffer.WriteTo: invalid Write count")
                    else match werr with
                         | Some err => ret (Some err)
                         | None => if negb (m =? Z.of_nat (String.length r))
                                   then ret (Some "short write") else ret None
                         end) in
       match err with
       | Some x => emit (EvStdout ("log: Failed to write -- " +:+ x +:+ nl))
       | None => ret tt
       end)).
  { unfold copy, io_Copy. rewrite Hw.
    by rewrite (proj2 (Z.ltb_lt 0 (Z.of_nat (String.length r))) Hpos). }
  assert (H1 : Z.of_nat (String.length r) < m ->
               copy e r = ([EvWrite r], Panic "bytes.Buffer.WriteTo: invalid Write count")).
  { intros H. rewrite Hcopy, bind_assoc, bind_emit.
    by rewrite (proj2 (Z.ltb_lt _ _) H). }
  assert (H2 : m <= Z.of_nat (String.length r) -> forall x, werr = Some x ->
               copy e r = ([EvWrite r; EvStdout ("log: Failed to write -- " +:+ x +:+ nl)],
                           Done tt)).
  { intros H x ->. rewrite Hcopy, bind_assoc, bind_emit.
    by rewrite (proj2 (Z.ltb_ge _ _) H). }
  assert (H3 : m < Z.of_nat (String.length r) -> werr = None ->
               copy e r
               = ([EvWrite r;
                   EvStdout ("log: Failed to write -- " +:+ "short write" +:+ nl)],
                  Done tt)).
  { intros H ->. rewrite Hcopy, bind_assoc, bind_emit.
    rewrite (proj2 (Z.ltb_ge _ _)) by lia.
    by rewrite (proj2 (Z.eqb_neq _ _)) by lia. }
  assert (H4 : m = Z.of_nat (String.length r) -> werr = None ->
               copy e r = ([EvWrite r], Done tt)).
  { intros H ->. rewrite Hcopy, bind_assoc, bind_emit.
    rewrite (proj2 (Z.ltb_ge _ _)) by lia.
    by rewrite (proj2 (Z.eqb_eq _ _)) by lia. }
  split; [exact H1 |]. split; [exact H2 |]. split; [exact H3 |]. split; [exact H4 |].
  intros Hle e0 rd HF Hb He.
  assert (Hd : exists d, copy e r = (EvWrite r :: d, Done tt)).
  { destruct werr as [x |]; [eexists; by apply H2 |].
    destruct (decide (m = Z.of_nat (String.length r))) as [Hm | Hm];
      [eexists; by apply H4 | eexists; apply H3; [lia | done]]. }
  destruct Hd as [d Hd]. exists d.
  rewrite (log_rendered e0 rd HF). cbv zeta. rewrite Hb, <- He, Hd.
  destruct (fire PRE (entry_EntryLevel e0) e0) as [t1 [[] | |]]; [| done..].
  rewrite !bind_Done. cbn beta iota.
  destruct (fire POST (entry_EntryLevel e0) e) as [t4 o4].
  simpl. by rewrite <- app_assoc.
Qed.

Lemma copy_write_outcomes_witness :
  copy (newEntry short_logger LInfo []) "partial"
  = ([EvWrite "partial"; EvStdout ("log: Failed to write -- short write" +:+ nl)],
     Done tt).
Proof.
  refine (proj1 (proj2 (proj2 (copy_write_outcomes (newEntry short_logger LInfo [])
                                 "partial" 0 None _ _))) _ _);
    [discriminate | reflexivity | reflexivity | reflexivity].
Defined.

(** ** Calls on a logger with the raw formatter *)

Lemma nl_nonempty (b : string) : b +:+ nl <> "".
Proof. destruct b; done. Qed.

Lemma log_plain (e : entry) (fds : list Field) (bs : string) :
  logger_Formatter (entry_Logger e) (view e) = Done (mkRendered fds bs None) ->
  bs <> "" ->
  logger_Writer (entry_Logger e) bs = (Z.of_nat (String.length bs), None) ->
  registered (logger_Hooks (entry_Logger e)) PRE (entry_EntryLevel e) = None ->
  registered (logger_Hooks (entry_Logger e)) POST (entry_EntryLevel e) = None ->
  log e = ([EvFormat; EvWrite bs], Done tt).
Proof.
  intros HF Hbs HW Hpre Hpost. rewrite (log_rendered e _ HF). cbv zeta.
  unfold fire. cbn [entry_with_fields entry_Logger rendered_fields rendered_bytes
                      rendered_err read_diag].
  rewrite !hooks_Fire_registered, Hpre, Hpost, !bind_ret_l.
  unfold copy, io_Copy. cbn [entry_with_fields entry_Logger]. rewrite HW.
  rewrite (proj2 (Z.ltb_lt 0 _) (length_pos bs Hbs)), Z.ltb_irrefl, Z.eqb_refl.
  reflexivity.
Qed.

(** X14. [Print], [Println] and [Printf] on a logger that renders with the
    raw formatter, has a sink that takes all it is given, lets records at
    [LInfo] through and has no hooks for [LInfo]: each call renders once and
    writes once.  [Print] writes the string forms of its operands one after
    the other, with nothing between them, and a newline; [Println] writes the
    same, adding neither spaces nor a second newline; [Printf] writes what
    [fmt.Sprintf] gives for the template and the operands, and a newline. *)
Theorem raw_Print_writes (go : GoRuntime) (laws : GoRuntimeLaws go)
    (l : logger) (format_ : string) (v : list any)
    (HF : logger_Formatter l = RawFormatter_Format)
    (HW : forall p, logger_Writer l p = (Z.of_nat (String.length p), None))
    (Hpre : registered (logger_Hooks l) PRE LInfo = None)
    (Hpost : registered (logger_Hooks l) POST LInfo = None)
    (Hlv : logger_level l >= LError)
    (Hlen : Z.of_nat (length v) <= max_int) :
  let forms := string_concat ((fun x => fmt_Sprintf "%s" [x]) <$> v) in
  logger_Print l v = ([EvFormat; EvWrite (forms +:+ nl)], Done tt) /\
  logger_Println l v = ([EvFormat; EvWrite (forms +:+ nl)], Done tt) /\
  logger_Printf l format_ v = ([EvFormat; EvWrite (fmt_Sprintf format_ v +:+ nl)], Done tt) /\
  (forall s, v = [AString s] ->
     logger_Print l v = ([EvFormat; EvWrite (s +:+ nl)], Done tt) /\
     logger_Printf l "%s" v = ([EvFormat; EvWrite (s +:+ nl)], Done tt)).
Proof.
  cbv zeta.
  assert (Hg : (logger_level l >=? LError) = true) by (apply Z.geb_le; lia).
  assert (Hprint : log (newEntry l LInfo (mkFields 0 v))
    = ([EvFormat;
        EvWrite (string_concat ((fun x => fmt_Sprintf "%s" [x]) <$> v) +:+ nl)], Done tt)).
  { apply (log_plain _ (mkFields 0 v)); try done; [| apply nl_nonempty].
    cbn [newEntry entry_Logger]. rewrite HF. unfold RawFormatter_Format.
    cbn [view view_fields entry_Fields newEntry entry_fields].
    destruct (format_mkFields go laws "" v Hlen) as [_ ->]. cbn [obind].
    by rewrite Fprintf_each_concat. }
  assert (Hprintf : forall f, log (newEntry l LInfo (mkFormatFields f v))
    = ([EvFormat; EvWrite (fmt_Sprintf f v +:+ nl)], Done tt)).
  { intros f. apply (log_plain _ (sort_Sort (mkFormatFields f v))); try done;
      [| apply nl_nonempty].
    cbn [newEntry entry_Logger]. rewrite HF. unfold RawFormatter_Format.
    cbn [view view_fields entry_Fields newEntry entry_fields].
    by rewrite (format_mkFormatFields go laws "" f v Hlen). }
  unfold logger_Print, logger_Println, logger_Printf. rewrite Hg.
  split; [exact Hprint |]. split; [exact Hprint |]. split; [apply Hprintf |].
  intros s ->. rewrite Hprint, Hprintf. cbn [fmap list_fmap string_concat foldr].
  rewrite fmt_Sprintf_s_string, append_nil_r'. done.
Qed.

Lemma raw_Print_writes_witness :
  logger_Print (@raw_logger go_insertion LDebug) [AString "a"; AInt 1; ABool true]
  = ([EvFormat;
      EvWrite (string_concat ((fun x => mini_Sprintf "%s" [x])
                                <$> [AString "a"; AInt 1; ABool true]) +:+ nl)],
     Done tt).
Proof.
  refine (proj1 (raw_Print_writes go_insertion go_insertion_laws
                   (@raw_logger go_insertion LDebug)
                   "%s" [AString "a"; AInt 1; ABool true] _ _ _ _ _ _));
    try reflexivity; vm_compute; discriminate.
Defined.

(** ** The text formatter *)

Lemma color_wrap_sgr (go : GoRuntime) (a : Attribute) (w s : string) :
  color_wrap (mkColor [a]) w s
  = if isatty_IsTerminal then w +:+ sgr (itoa a) s else w +:+ s.
Proof.
  unfold color_wrap, NoColor, sgr, color_sequence. cbn [params fmap list_fmap strings_Join].
  destruct isatty_IsTerminal; cbn [negb]; [| done].
  by rewrite !append_assoc'.
Qed.

Lemma Level_Color_sgr (go : GoRuntime) (lv : Level) (w s : string) :
  Level_Color lv w s
  = if isatty_IsTerminal then w +:+ sgr (level_code lv) s else w +:+ s.
Proof.
  unfold Level_Color, level_code.
  unfold red, magenta, cyan, yellow, green, blue, white, Color. cbn [app].
  repeat (destruct (_ =? _); [by rewrite color_wrap_sgr |]).
  by rewrite color_wrap_sgr.
Qed.

(** X15. What the text formatter returns, for an entry whose fields keyed
    "Format" hold strings: the name of the entry's level in upper case, the
    formatter's name, the time in the formatter's layout -- [time.StampNano]
    when the layout is empty --, each followed by one space, then the body
    of the fields and a newline; no error.  When standard output is a
    terminal, each of the three leading parts, with its space, stands between
    an escape sequence for its colour -- 91 to 97 by level, 90 for the name,
    94 for the time -- and the reset sequence; otherwise no escape sequence is
    added.  [MakeTextFormatter(tag)] gives the name [tag] and the layout
    [time.StampNano]. *)
Theorem TextFormatter_output (go : GoRuntime) (laws : GoRuntimeLaws go)
    (t : TextFormatter) (e : EntryView) (Hs : string_templates (view_fields e)) :
  let fds := sort_Sort (view_fields e) in
  let layout :=
    if String.eqb (TimestampFormat t) "" then time_StampNano else TimestampFormat t in
  let lvl := strings_ToUpper (Level_String (view_level e)) +:+ " " in
  let name := Name t +:+ " " in
  let stamp := time_Now_Format layout +:+ " " in
  (isatty_IsTerminal = false ->
   TextFormatter_Format t e
   = Done (mkRendered fds (lvl +:+ name +:+ stamp +:+ rendered_body fds +:+ nl) None)) /\
  (isatty_IsTerminal = true ->
   TextFormatter_Format t e
   = Done (mkRendered fds
             (sgr (level_code (view_level e)) lvl +:+ sgr "90" name +:+ sgr "94" stamp
                +:+ rendered_body fds +:+ nl) None)) /\
  (forall tag, Name (MakeTextFormatter tag) = tag /\
               TimestampFormat (MakeTextFormatter tag) = "Jan _2 15:04:05.000000000").
Proof.
  cbv zeta.
  assert (H : TextFormatter_Format t e
    = Done (mkRendered (sort_Sort (view_fields e))
        ((blue (black (Level_Color (view_level e) ""
                         (strings_ToUpper (Level_String (view_level e)) +:+ " "))
                  (Name t +:+ " "))
            (time_Now_Format (if String.eqb (TimestampFormat t) "" then time_StampNano
                              else TimestampFormat t) +:+ " ")
          +:+ rendered_body (sort_Sort (view_fields e))) +:+ nl) None)).
  { unfold TextFormatter_Format, TextFormatter_formatFields, tmplTo.
    by rewrite format_strings. }
  split; [| split; [| done]]; intros Htty; rewrite H; do 2 f_equal;
    unfold blue, black, Color; cbn [app];
    rewrite !color_wrap_sgr, Level_Color_sgr, Htty; cbn [String.append];
    by rewrite !append_assoc'.
Qed.

Lemma TextFormatter_output_witness :
  @TextFormatter_Format go_insertion (MakeTextFormatter "TEST")
    (mkView LInfo (mkFields 0 [AString "MESSAGE"]))
  = Done (mkRendered (mkFields 0 [AString "MESSAGE"])
            ("INFO TEST Jan  1 00:00:00.000000000 MESSAGE" +:+ nl) None).
Proof.
  refine (proj1 (TextFormatter_output go_insertion go_insertion_laws
                   (MakeTextFormatter "TEST")
                   (mkView LInfo (mkFields 0 [AString "MESSAGE"])) _) _);
    [apply string_templates_mkFields | reflexivity].
Defined.

(** ** A new logger *)

Lemma builtin_registered_PRE (lv : Level) : registered builtin_hooks PRE lv = None.
Proof. reflexivity. Qed.

Lemma builtin_registered_POST (lv : Level) :
  registered builtin_hooks POST lv
  = if decide (lv = LPanic) then Some [panicHook]
    else if decide (lv = LFatal) then Some [exitHook] else None.
Proof.
  unfold registered, builtin_hooks. cbn [has].
  change (default ∅ _) with (<[LPanic:=[panicHook]]> (<[LFatal:=[exitHook]]> (∅ : gmap Z (list Hook)))).
  destruct (decide (lv = LPanic)) as [-> | H1]; [by rewrite lookup_insert_eq |].
  rewrite lookup_insert_ne by done.
  destruct (decide (lv = LFatal)) as [-> | H2]; [by rewrite lookup_insert_eq |].
  by rewrite lookup_insert_ne.
Qed.

(** A record on a logger that has the hooks of a new logger and renders
    with the null formatter. *)
Lemma log_null (e : entry) :
  logger_Hooks (entry_Logger e) = builtin_hooks ->
  logger_Formatter (entry_Logger e) = NullFormatter_Format ->
  log e = if decide (entry_EntryLevel e = LPanic)
          then ([EvFormat; EvHook POST LPanic 0%nat], Panic "panic hook")
          else if decide (entry_EntryLevel e = LFatal)
               then ([EvFormat; EvHook POST LFatal 0%nat], Exit 1)
               else ([EvFormat], Done tt).
Proof.
  intros Hh HF.
  rewrite (log_rendered e (mkRendered (entry_Fields e) "" None))
    by (by rewrite HF). cbv zeta.
  cbn [rendered_fields rendered_bytes rendered_err read_diag]. rewrite copy_empty.
  unfold fire. cbn [entry_with_fields entry_Logger].
  rewrite !hooks_Fire_registered, Hh, builtin_registered_PRE, builtin_registered_POST.
  rewrite !bind_ret_l.
  destruct (decide (entry_EntryLevel e = LPanic)) as [-> | H1]; [reflexivity |].
  destruct (decide (entry_EntryLevel e = LFatal)) as [-> | H2]; reflexivity.
Qed.

(** X16. A new logger.  [New(w, lv, tag)] returns a logger with sink [w],
    level [lv] and the two built-in hooks, whose table holds the null, the
    raw and the text formatter (named [tag]) and whose active formatter is
    the null formatter.  Until [SwapFormatter] is called with "raw" or "text"
    (or a name stored under later), a record put through the logger is
    rendered to nothing and the sink is not written to; a record at
    [LFatal] or [LPanic] still ends the call by exit status 1 or a panic. *)
Theorem New_logger (go : GoRuntime) (w : Writer) (lv : Level) (tag : string) :
  exists l,
    New w lv tag = Done l /\
    (logger_Writer l = w /\ logger_Level l = lv /\ logger_Hooks l = builtin_hooks) /\
    logger_Formatter l = NullFormatter_Format /\
    (logger_GetFormatter l "null" = NullFormatter_Format /\
     logger_GetFormatter l "raw" = RawFormatter_Format /\
     logger_GetFormatter l "text" = TextFormatter_Format (MakeTextFormatter tag) /\
     forall k, k <> "raw" -> k <> "text" ->
               logger_GetFormatter l k = NullFormatter_Format) /\
    (forall k e,
       k <> "raw" -> k <> "text" ->
       entry_Logger e = l \/ entry_Logger e = logger_SwapFormatter l k ->
       log e = (if decide (entry_EntryLevel e = LPanic)
                then ([EvFormat; EvHook POST LPanic 0%nat], Panic "panic hook")
                else if decide (entry_EntryLevel e = LFatal)
                     then ([EvFormat; EvHook POST LFatal 0%nat], Exit 1)
                     else ([EvFormat], Done tt)) /\
       forall p, EvWrite p ∉ trace (log e)).
Proof.
  eexists. split; [reflexivity |].
  assert (Hget : forall k, k <> "raw" -> k <> "text" ->
            logger_GetFormatter
              (logger_SwapFormatter
                 (mkLogger w lv nil_Formatter (defaultFormatters tag) builtin_hooks) "null") k
            = NullFormatter_Format).
  { intros k H1 H2. unfold logger_GetFormatter, logger_SwapFormatter, defaultFormatters.
    cbn [logger_formatters].
    rewrite !lookup_insert_ne by done.
    destruct (decide (k = "null")) as [-> | H3]; [by rewrite lookup_insert_eq |].
    by rewrite lookup_insert_ne. }
  split; [done |]. split; [done |].
  split; [repeat split; try done; exact Hget |].
  intros k e H1 H2 He.
  assert (Hlog : log e = (if decide (entry_EntryLevel e = LPanic)
                then ([EvFormat; EvHook POST LPanic 0%nat], Panic "panic hook")
                else if decide (entry_EntryLevel e = LFatal)
                     then ([EvFormat; EvHook POST LFatal 0%nat], Exit 1)
                     else ([EvFormat], Done tt))).
  { apply log_null; destruct He as [-> | ->]; try done.
    cbn [logger_SwapFormatter logger_Formatter]. by apply Hget. }
  split; [exact Hlog |].
  intros p Hin. rewrite Hlog in Hin.
  destruct (decide (entry_EntryLevel e = LPanic));
    [| destruct (decide (entry_EntryLevel e = LFatal))];
    cbn [trace fst] in Hin;
    repeat (apply elem_of_cons in Hin as [[=] | Hin]); by apply elem_of_nil in Hin.
Qed.

(** ** [AtTo] and [AtTof] *)

Lemma entry_Read_cases (e : entry) :
  entry_Read e
  = match logger_Formatter (entry_Logger e) (view e) with
    | Done r => ([EvFormat], Done (entry_with_fields e (rendered_fields r),
                                   rendered_bytes r, rendered_err r))
    | Panic msg => ([EvFormat], Panic msg)
    | Exit code => ([EvFormat], Exit code)
    end.
Proof.
  unfold entry_Read, lift. rewrite bind_emit.
  by destruct (logger_Formatter _ _) as [r | msg | code].
Qed.

Lemma fire_stdout (at_ : Timing) (lv : Level) (e : entry) (msg : string) :
  EvStdout msg ∈ trace (fire at_ lv e) ->
  exists x, msg = "log: Failed to fire hook -- " +:+ x +:+ nl.
Proof.
  unfold fire.
  destruct (hooks_Fire_trace (logger_Hooks (entry_Logger e)) at_ lv (view e)) as [k Hk].
  destruct (hooks_Fire _ at_ lv (view e)) as [t [[err |] | m | c]];
    unfold bind, emit, ret, trace in *; simpl in *; subst t;
    rewrite ?elem_of_app, ?list_elem_of_fmap.
  - intros [(j & [=] & _) | Hin]. apply list_elem_of_singleton in Hin as [= ->].
    by exists err.
  - by intros [(j & [=] & _) | Hin%elem_of_nil].
  - by intros (j & [=] & _).
  - by intros (j & [=] & _).
Qed.

Lemma fire_hook (at_ : Timing) (lv : Level) (e : entry) (t : Timing) (l : Level) (i : nat) :
  EvHook t l i ∈ trace (fire at_ lv e) -> t = at_ /\ l = lv.
Proof.
  intros Hin. pose proof (fire_trace at_ lv e) as H.
  rewrite Forall_forall in H. specialize (H _ Hin). unfold fire_event in H.
  by destruct H as [[j [= -> -> ->]] | [m [=]]].
Qed.

Lemma to_pipeline_events (lv : Level) (to : Writer) (e : entry) (ev : EventTo) :
  ev ∈ (to_pipeline lv to e).1 ->
  (exists ev0, ev = OnLogger ev0 /\ ev0 ∈ trace (fire PRE lv e)) \/
  ev = OnLogger EvFormat \/
  (exists r, logger_Formatter (entry_Logger e) (view e) = Done r /\
     ((ev = EvWriteTo (rendered_bytes r) /\ rendered_bytes r <> "") \/
      exists ev0, ev = OnLogger ev0 /\
                  ev0 ∈ trace (fire POST lv (entry_with_fields e (rendered_fields r))))).
Proof.
  unfold to_pipeline, on_logger.
  destruct (fire PRE lv e) as [t1 o1]. cbn [trace outcome fst snd].
  assert (H1 : forall ev, ev ∈ OnLogger <$> t1 ->
                 exists ev0, ev = OnLogger ev0 /\ ev0 ∈ t1).
  { intros ev' (ev0 & -> & Hin)%list_elem_of_fmap. by exists ev0. }
  destruct o1 as [[] | |]; cbn [bindTo]; [| by left; apply H1 ..].
  rewrite entry_Read_cases.
  destruct (logger_Formatter _ _) as [r | |] eqn:EF;
    cbn [trace outcome fst snd fmap list_fmap bindTo].
  - unfold io_Copy_to.
    assert (H4 : forall ev,
               ev ∈ OnLogger <$> trace (fire POST lv (entry_with_fields e (rendered_fields r))) ->
               exists ev0, ev = OnLogger ev0 /\
                 ev0 ∈ trace (fire POST lv (entry_with_fields e (rendered_fields r)))).
    { intros ev' (ev0 & -> & Hin)%list_elem_of_fmap. by exists ev0. }
    destruct (0 <? Z.of_nat (String.length (rendered_bytes r))) eqn:E0.
    + assert (Hne : rendered_bytes r <> "").
      { intros Hb. rewrite Hb in E0. done. }
      destruct (to (rendered_bytes r)) as [m werr].
      destruct (Z.of_nat (String.length (rendered_bytes r)) <? m); cbn [bindTo app fst].
      * rewrite !elem_of_app, !elem_of_cons.
        intros [Hin | [-> | [-> | Hin%elem_of_nil]]]; try done;
          [left; by apply H1 | by right; left | right; right; exists r; split; [done |]; by left].
      * rewrite !elem_of_app, !elem_of_cons.
        intros [Hin | [-> | [-> | Hin]]];
          [left; by apply H1 | by right; left
          | right; right; exists r; split; [done |]; by left
          | right; right; exists r; split; [done |]; right; by apply H4].
    + cbn [bindTo app fst]. rewrite !elem_of_app, !elem_of_cons.
      intros [Hin | [-> | Hin]];
        [left; by apply H1 | by right; left
        | right; right; exists r; split; [done |]; right; by apply H4].
  - rewrite elem_of_app, list_elem_of_singleton.
    intros [Hin | ->]; [left; by apply H1 | by right; left].
  - rewrite elem_of_app, list_elem_of_singleton.
    intros [Hin | ->]; [left; by apply H1 | by right; left].
Qed.

Lemma to_pipeline_writes_aside (lv : Level) (to : Writer) (e : entry) :
  writes_aside (to_pipeline lv to e) lv e.
Proof.
  unfold writes_aside. split; [| split; [| split]].
  - intros p Hin. apply to_pipeline_events in Hin
      as [(ev0 & [= <-] & Hin) | [[=] | (r & HF & [[[=] _] | (ev0 & [= <-] & Hin)])]];
      by apply fire_no_write in Hin.
  - intros p Hin. apply to_pipeline_events in Hin
      as [(ev0 & [=] & _) | [[=] | (r & HF & [[Hev Hne] | (ev0 & [=] & _)])]].
    injection Hev as ->. split; [done | by exists r].
  - intros msg Hin. apply to_pipeline_events in Hin
      as [(ev0 & [= <-] & Hin) | [[=] | (r & HF & [[[=] _] | (ev0 & [= <-] & Hin)])]];
      by apply fire_stdout in Hin.
  - intros t l i Hin. apply to_pipeline_events in Hin
      as [(ev0 & [= <-] & Hin) | [[=] | (r & HF & [[[=] _] | (ev0 & [= <-] & Hin)])]];
      apply fire_hook in Hin as [-> ->]; (split; [done |]); (by left) || (by right).
Qed.

Lemma fire_unregistered (at_ : Timing) (lv : Level) (e : entry) :
  registered (logger_Hooks (entry_Logger e)) at_ lv = None -> fire at_ lv e = ret tt.
Proof. intros H. unfold fire. by rewrite hooks_Fire_registered, H. Qed.

Lemma to_pipeline_renders_aside (lv : Level) (to : Writer) (e : entry) :
  renders_aside (to_pipeline lv to e) lv to e.
Proof.
  intros Hpre Hpost r HF. unfold to_pipeline.
  rewrite entry_Read_cases, HF, (fire_unregistered PRE lv e Hpre).
  unfold on_logger. cbn [trace outcome fst snd fmap list_fmap bindTo ret].
  rewrite (fire_unregistered POST lv (entry_with_fields e (rendered_fields r)) Hpost).
  unfold io_Copy_to. cbn [trace outcome fst snd fmap list_fmap bindTo ret].
  split.
  - intros ->. reflexivity.
  - intros Hne Hle.
    rewrite (proj2 (Z.ltb_lt 0 _) (length_pos _ Hne)).
    destruct (to (rendered_bytes r)) as [m werr]. cbn [fst] in Hle.
    by rewrite (proj2 (Z.ltb_ge _ _) Hle).
Qed.

(** X17. [AtTo] and [AtTof] write to the writer given in the call and never
    to the logger's sink.  What they write is what the formatter returned
    for the entry, handed over in one [Write] when it is not empty.  They
    fire the hooks registered for the level given in the call, before and
    after.  Neither the formatter's error nor a failed or short write is
    reported: the only diagnostic they print is that of a failing hook. *)
Theorem AtTo_writes_aside (l : logger) (lv : Level) (to : Writer)
    (format_ : string) (v : list any) :
  (writes_aside (logger_AtTo l lv to v) lv (newEntry l lv (mkFields 0 v)) /\
   renders_aside (logger_AtTo l lv to v) lv to (newEntry l lv (mkFields 0 v))) /\
  (writes_aside (logger_AtTof l lv to format_ v) lv
     (newEntry l lv (mkFormatFields format_ v)) /\
   renders_aside (logger_AtTof l lv to format_ v) lv to
     (newEntry l lv (mkFormatFields format_ v))).
Proof.
  split; split.
  - apply (to_pipeline_writes_aside lv to (newEntry l lv (mkFields 0 v))).
  - apply (to_pipeline_renders_aside lv to (newEntry l lv (mkFields 0 v))).
  - apply (to_pipeline_writes_aside lv to (newEntry l lv (mkFormatFields format_ v))).
  - apply (to_pipeline_renders_aside lv to (newEntry l lv (mkFormatFields format_ v))).
Qed.

Lemma AtTo_writes_aside_witness :
  logger_AtTo failing_logger LInfo (fun _ => (0, Some "closed")) []
  = ([OnLogger EvFormat; EvWriteTo "partial"], Done tt).
Proof.
  refine (proj2 (proj2 (proj1 (AtTo_writes_aside failing_logger LInfo
                                 (fun _ => (0, Some "closed")) "" []))
                   _ _ (mkRendered [] "partial" (Some "boom")) _) _ _);
    [reflexivity | reflexivity | reflexivity | discriminate | discriminate].
Defined.

(** [TestXtr]: [AtTo] and [AtTof] write "MESSAGE" and a newline to the
    buffer given; a writer that fails, and a formatter that fails, go
    unreported. *)
Example TestXtr_AtTo_scenario :
  let l := @raw_logger go_insertion LDebug in
  let written := ([OnLogger EvFormat; EvWriteTo ("MESSAGE" +:+ nl)], Done tt) in
  logger_AtTo l LInfo bytes_Buffer [AString "MESSAGE"] = written /\
  logger_AtTof l LInfo bytes_Buffer "%s" [AString "MESSAGE"] = written /\
  logger_AtTo l LInfo (fun _ => (0, Some "closed")) [AString "MESSAGE"] = written /\
  logger_AtTo failing_logger LInfo bytes_Buffer []
  = ([OnLogger EvFormat; EvWriteTo "partial"], Done tt).
Proof. repeat split; reflexivity. Qed.

(** ** The fields after rendering *)

(** X18. Rendering sorts the entry's own fields.  On a logger that renders
    with the raw formatter, for fields whose templates are strings, the
    hooks fired before rendering are given the entry with its fields in the
    order of the caller, and the hooks fired after it the same entry with
    its fields sorted by [Order]; what is written is the body of the sorted
    fields and a newline. *)
Theorem post_hooks_see_sorted_fields (go : GoRuntime) (laws : GoRuntimeLaws go)
    (e : entry)
    (HF : logger_Formatter (entry_Logger e) = RawFormatter_Format)
    (Hs : string_templates (entry_Fields e)) :
  let lv := entry_EntryLevel e in
  let fds := sort_Sort (entry_Fields e) in
  let e' := entry_with_fields e fds in
  log e = (fire PRE lv e >> emit EvFormat >>
           copy e' (rendered_body fds +:+ nl) >> fire POST lv e') /\
  view e = mkView lv (entry_Fields e) /\
  view e' = mkView lv fds /\
  entry_Fields e' ≡ₚ entry_Fields e /\
  (forall i j a b, (i < j)%nat -> entry_Fields e' !! i = Some a ->
                   entry_Fields e' !! j = Some b -> Order a <= Order b).
Proof.
  cbv zeta.
  assert (Hr : logger_Formatter (entry_Logger e) (view e)
               = Done (mkRendered (sort_Sort (entry_Fields e))
                         (rendered_body (sort_Sort (entry_Fields e)) +:+ nl) None)).
  { rewrite HF. by apply RawFormatter_strings. }
  split; [| split; [done |]; split; [done |]; split].
  - rewrite (log_rendered e _ Hr). cbv zeta.
    cbn [rendered_fields rendered_bytes rendered_err read_diag].
    destruct (fire PRE (entry_EntryLevel e) e) as [t1 [[] | |]]; [| done..].
    by rewrite !bind_Done, bind_emit.
  - apply sort_Sort_Permutation.
  - intros i j a b Hij Ha Hb. cbn [entry_with_fields entry_Fields entry_fields] in Ha, Hb.
    pose proof (sort_Sort_StronglySorted go laws (entry_Fields e)) as Hsorted.
    apply (proj1 (StronglySorted_lookup _ _) Hsorted i j a b Hij Ha Hb).
Qed.

Lemma post_hooks_see_sorted_fields_witness :
  view (newEntry (@raw_logger go_insertion LDebug) LInfo
          [mkField 2 "b" (AString "b"); mkField 1 "a" (AString "a")])
  = mkView LInfo [mkField 2 "b" (AString "b"); mkField 1 "a" (AString "a")] /\
  view (entry_with_fields
          (newEntry (@raw_logger go_insertion LDebug) LInfo
             [mkField 2 "b" (AString "b"); mkField 1 "a" (AString "a")])
          (@sort_Sort go_insertion
             [mkField 2 "b" (AString "b"); mkField 1 "a" (AString "a")]))
  = mkView LInfo [mkField 1 "a" (AString "a"); mkField 2 "b" (AString "b")].
Proof.
  split; [reflexivity |].
  refine (proj1 (proj2 (proj2 (post_hooks_see_sorted_fields go_insertion go_insertion_laws
                                 (newEntry (@raw_logger go_insertion LDebug) LInfo
                                    [mkField 2 "b" (AString "b");
                                     mkField 1 "a" (AString "a")]) _ _))));
    [reflexivity |].
  intros fd Hin HK. cbn [entry_Fields newEntry entry_fields] in Hin.
  repeat (apply elem_of_cons in Hin as [-> | Hin]; [done |]).
  by apply elem_of_nil in Hin.
Defined.
